(** * mqtt-to-influxdb-forwarder: a shallow embedding of [forwarder.py]

    The development follows the source file top to bottom:

    - the part of Python's [re] module that [on_message] relies on
      (a compiled pattern, [re.match], named groups);
    - the run-time store: instances with dynamic attributes, list objects
      behind references, the log and the calls that leave the process;
    - [InfluxStore.store_msg], [MessageSource.register_store],
      [MessageSource.stores] and the [on_message] handler of [MQTTSource];
    - the properties of the message pipeline.

    Python's [float] builtin, the InfluxDB client and sinks written by
    other people are not part of the repository: they are the fields of
    the class [Environment], which the program is run against. *)

From Stdlib Require Import Ascii String PrimFloat.
From stdpp Require Import gmap strings list fin_maps.

Local Open Scope string_scope.
Local Open Scope list_scope.

(** ** Regular expressions: the fragment of [re] used by the handler *)

Module Re.

(** A matcher for one character: a literal, or the category [\w].  The
    pattern is compiled without [re.UNICODE] and [re.LOCALE], so [\w] is
    [[a-zA-Z0-9_]]. *)
Inductive atom :=
| Literal (c : ascii)
| CategoryWord.

Definition is_word (c : ascii) : bool :=
  let n := nat_of_ascii c in
  (((48 <=? n) && (n <=? 57)) || ((65 <=? n) && (n <=? 90))
   || ((97 <=? n) && (n <=? 122)) || (n =? 95))%nat.

Definition accepts (a : atom) (c : ascii) : bool :=
  match a with
  | Literal l => bool_decide (l = c)
  | CategoryWord => is_word c
  end.

(** The compiled form of a pattern, as [sre_compile] lays it out: single
    characters, greedy repetitions [MAX_REPEAT lo hi] of a single
    character ([hi = None] stands for [MAXREPEAT]), and [MARK]s that
    record where a group opens ([2 * (g - 1)]) and closes
    ([2 * (g - 1) + 1]). *)
Inductive instr :=
| One (a : atom)
| MaxRepeat (lo : nat) (hi : option nat) (a : atom)
| Mark (i : nat).

Record pattern := Pattern {
  code : list instr;
  groupindex : gmap string nat
}.

(** Greedy repetition with backtracking: take one more character when
    the bounds and the text allow it and the rest of the pattern then
    succeeds; otherwise stop here, which is allowed once [lo] characters
    were taken. *)
Fixpoint max_repeat {R : Type} (a : atom) (lo : nat) (hi : option nat)
    (cont : list ascii → nat → option R) (s : list ascii) (pos : nat)
    : option R :=
  let stop := if (lo =? 0)%nat then cont s pos else None in
  match s with
  | c :: s' =>
      if accepts a c && negb (bool_decide (hi = Some 0)) then
        match max_repeat a (pred lo) (pred <$> hi) cont s' (S pos) with
        | Some r => Some r
        | None => stop
        end
      else stop
  | [] => stop
  end.

(** Running the code on the text [s], [pos] characters into the subject.
    The end of the code is a success wherever the text stands: [re.match]
    anchors the start only. *)
Fixpoint exec (prog : list instr) (s : list ascii) (pos : nat)
    (marks : gmap nat nat) {struct prog} : option (nat * gmap nat nat) :=
  match prog with
  | [] => Some (pos, marks)
  | One a :: k =>
      match s with
      | c :: s' => if accepts a c then exec k s' (S pos) marks else None
      | [] => None
      end
  | MaxRepeat lo hi a :: k =>
      max_repeat a lo hi (λ s' pos', exec k s' pos' marks) s pos
  | Mark i :: k => exec k s pos (<[i := pos]> marks)
  end.

(** A match object: the subject, the marks and the pattern's names. *)
Record match_object := MatchObject {
  subject : list ascii;
  end_pos : nat;
  marks : gmap nat nat;
  names : gmap string nat
}.

(** [regex.match(string)] *)
Definition re_match (p : pattern) (s : string) : option match_object :=
  let chars := list_ascii_of_string s in
  match exec (code p) chars 0 ∅ with
  | Some (e, mk) => Some (MatchObject chars e mk (groupindex p))
  | None => None
  end.

(** [match.group(name)] for a group that took part in the match. *)
Definition group_span (m : match_object) (name : string) : option (nat * nat) :=
  g ← names m !! name;
  b ← marks m !! (2 * (g - 1));
  e ← marks m !! (2 * (g - 1) + 1);
  Some (b, e).

Definition group (m : match_object) (name : string) : option string :=
  '(b, e) ← group_span m name;
  Some (string_of_list_ascii (take (e - b) (drop b (subject m)))).

End Re.

(** The pattern of [on_message]:
    [/(?P<node_name>\w+)/(?P<measurement_name>\w+)/?] *)
Definition topic_regex : Re.pattern :=
  Re.Pattern
    [ Re.One (Re.Literal "/");
      Re.Mark 0; Re.MaxRepeat 1 None Re.CategoryWord; Re.Mark 1;
      Re.One (Re.Literal "/");
      Re.Mark 2; Re.MaxRepeat 1 None Re.CategoryWord; Re.Mark 3;
      Re.MaxRepeat 0 (Some 1) (Re.Literal "/") ]
    {[ "node_name" := 1; "measurement_name" := 2 ]}.

(** ** Values that travel through the pipeline *)

(** A record's value: the payload as received, or the [float] made of it. *)
Inductive value :=
| VStr (s : string)
| VFloat (x : float).

(** Exceptions, by class.  [ConnectionError] is
    [requests.exceptions.ConnectionError] (and what derives from it);
    [InfluxDBClientError] carries the HTTP status of the refusal. *)
Inductive exn :=
| AttributeError (attr : string)
| TypeError
| NotImplementedError
| ConnectionError
| InfluxDBClientError (status : nat)
| OtherException (cls : string).

Definition is_ConnectionError (e : exn) : bool :=
  match e with ConnectionError => true | _ => false end.

(** The dict handed to [write_points]: what a key of a point can hold. *)
Inductive point_entry :=
| PStr (s : string)
| PTags (tags : gmap string string)
| PFields (fields : gmap string value).

Abbreviation point := (gmap string point_entry).

(** The registered sinks.  [InfluxStore c] is an [InfluxStore] instance with
    [influx_client] number [c]; [MessageStore] an instance of the base
    class; [Custom i] an instance of a subclass defined elsewhere. *)
Inductive sink :=
| InfluxStore (influx_client : nat)
| MessageStore
| Custom (id : nat).

Inductive level := DEBUG | INFO | WARNING | ERROR.

(** What a logging call is given first: a format string (its arguments are
    not recorded), or an exception ([logger.exception]). *)
Inductive log_message :=
| Fmt (fmt : string)
| Exc (e : exn).

(** What can be observed of a run, in the order it happens. *)
Inductive event :=
| Log (logger : string) (lvl : level) (msg : log_message)
| StoreMsg (store : sink) (node_name measurement_name : string) (v : value)
| WritePoints (client : nat) (points : list point)
| Subscribe (topic : string).

(** ** The object store *)

Abbreviation loc := positive.

Inductive attr :=
| AStr (s : string)
| AStrList (l : list string)
| ARef (l : loc)
| AClient.

Inductive object :=
| Instance (cls : string) (dict : gmap string attr)
| ListObj (items : list sink).

Inductive result (A : Type) :=
| Return (a : A)
| Raise (e : exn).
Arguments Return {A} a.
Arguments Raise {A} e.

Record message := Message { topic : string; payload : string }.

(** ** What the program runs against *)

(** Everything outside the repository: Python's [float] builtin, the
    InfluxDB client and the sinks other people write.  [World] is the state
    of what lies outside the process (the storage backend, whatever a
    foreign sink talks to).

    - [float_ s] is [float(s)]: [Some x] when it returns [x], [None] when
      it raises [ValueError];
    - [write_points c points] is [write_points(points)] on InfluxDB client
      number [c]: [None] when it returns, [Some e] when it raises [e];
    - [custom_store_msg i] is [store_msg] of the foreign sink number [i];
    - [subscribe t] is [client.subscribe(t)] on the MQTT client: [None]
      when it returns, [Some e] when it raises [e] (paho checks the topic
      filter before it sends anything). *)
Class Environment (World : Type) := {
  float_ : string → option float;
  write_points : nat → list point → World → option exn * World;
  custom_store_msg :
    nat → string → string → value → World → option exn * World;
  subscribe : string → World → option exn * World
}.

(** ** The program *)

Section Forwarder.

Context `{Environment World}.

Record state := State {
  heap : gmap loc object;
  world : World;
  log : list event
}.

(** A computation reads and changes the state, and either returns or
    raises; what it did before raising stays done. *)
Definition M (A : Type) : Type := state → result A * state.

Definition ret {A} (a : A) : M A := λ st, (Return a, st).

Definition bind {A B} (m : M A) (k : A → M B) : M B :=
  λ st, match m st with
        | (Return a, st') => k a st'
        | (Raise e, st') => (Raise e, st')
        end.

Definition raise {A} (e : exn) : M A := λ st, (Raise e, st).

(** [try: m / except <class> as e: handler e] *)
Definition try_except {A} (m : M A) (catches : exn → bool)
    (handler : exn → M A) : M A :=
  λ st, match m st with
        | (Raise e, st') =>
            if catches e then handler e st' else (Raise e, st')
        | r => r
        end.

#[export] Instance M_ret : MRet M := @ret.
#[export] Instance M_bind : MBind M := λ A B k m, bind m k.

Definition emit (e : event) : M unit :=
  λ st, (Return tt, State (heap st) (world st) (log st ++ [e])).

(** A call that leaves the process. *)
Definition external (f : World → option exn * World) : M unit :=
  λ st, let '(r, w) := f (world st) in
        (match r with None => Return tt | Some e => Raise e end,
         State (heap st) w (log st)).

Definition alloc (o : object) : M loc :=
  λ st, let l := fresh (dom (heap st)) in
        (Return l, State (<[l := o]> (heap st)) (world st) (log st)).

(** [hasattr(self, name)] *)
Definition hasattr (self : loc) (name : string) : M bool :=
  λ st, (Return match heap st !! self with
                | Some (Instance _ d) => bool_decide (is_Some (d !! name))
                | _ => false
                end, st).

(** [self.<name>] *)
Definition getattr (self : loc) (name : string) : M attr :=
  λ st, match heap st !! self with
        | Some (Instance _ d) =>
            match d !! name with
            | Some a => (Return a, st)
            | None => (Raise (AttributeError name), st)
            end
        | _ => (Raise (AttributeError name), st)
        end.

(** [self.<name> = a] *)
Definition setattr (self : loc) (name : string) (a : attr) : M unit :=
  λ st, match heap st !! self with
        | Some (Instance c d) =>
            (Return tt,
             State (<[self := Instance c (<[name := a]> d)]> (heap st))
                   (world st) (log st))
        | _ => (Raise (AttributeError name), st)
        end.

(** The items of the list object an attribute value refers to. *)
Definition list_items (a : attr) : M (list sink) :=
  λ st, match a with
        | ARef l =>
            match heap st !! l with
            | Some (ListObj items) => (Return items, st)
            | _ => (Raise TypeError, st)
            end
        | _ => (Raise TypeError, st)
        end.

(** [<a>.append(x)] *)
Definition list_append (a : attr) (x : sink) : M unit :=
  λ st, match a with
        | ARef l =>
            match heap st !! l with
            | Some (ListObj items) =>
                (Return tt,
                 State (<[l := ListObj (items ++ [x])]> (heap st))
                       (world st) (log st))
            | _ => (Raise (AttributeError "append"), st)
            end
        | _ => (Raise (AttributeError "append"), st)
        end.

(** Any change made in place to the list object at [l]: [append],
    [remove], [del], [sort], slice assignment... *)
Definition list_update (l : loc) (f : list sink → list sink) : M unit :=
  λ st, match heap st !! l with
        | Some (ListObj items) =>
            (Return tt,
             State (<[l := ListObj (f items)]> (heap st))
                   (world st) (log st))
        | _ => (Raise TypeError, st)
        end.

(** [for x in xs: body x] *)
Fixpoint for_each {A} (xs : list A) (body : A → M unit) : M unit :=
  match xs with
  | [] => ret tt
  | x :: xs' => body x;; for_each xs' body
  end.

(** *** [class MessageStore] *)

Definition MessageStore_store_msg
    (node_name measurement_name : string) (v : value) : M unit :=
  raise NotImplementedError.

(** *** [class InfluxStore(MessageStore)] *)

Definition InfluxStore_logger := "forwarder.InfluxStore".

(** The dict [store_msg] builds for a record. *)
Definition influx_point (node_name measurement_name : string) (v : value)
    : point :=
  {[ "measurement" := PStr measurement_name;
     "tags" := PTags {[ "sensor_node" := node_name ]};
     "fields" := PFields {[ "value" := v ]} ]}.

Definition InfluxStore_store_msg (influx_client : nat)
    (node_name measurement_name : string) (v : value) : M unit :=
  let influx_msg := influx_point node_name measurement_name v in
  emit (Log InfluxStore_logger DEBUG (Fmt "Writing InfluxDB point: %s"));;
  try_except
    (emit (WritePoints influx_client [influx_msg]);;
     external (write_points influx_client [influx_msg]))
    is_ConnectionError
    (λ e, emit (Log InfluxStore_logger ERROR (Exc e))).

(** [store.store_msg(node_name, measurement_name, value)]: the method of
    the class of [store]. *)
Definition store_msg (store : sink)
    (node_name measurement_name : string) (v : value) : M unit :=
  match store with
  | InfluxStore c => InfluxStore_store_msg c node_name measurement_name v
  | MessageStore => MessageStore_store_msg node_name measurement_name v
  | Custom i => external (custom_store_msg i node_name measurement_name v)
  end.

(** *** [class MessageSource] *)

Definition register_store (self : loc) (store : sink) : M unit :=
  has ← hasattr self "_stores";
  (if negb has then
     l ← alloc (ListObj []);
     setattr self "_stores" (ARef l)
   else mret tt);;
  a ← getattr self "_stores";
  list_append a store.

(** The [stores] property: [list(self._stores)], a new list object. *)
Definition stores (self : loc) : M loc :=
  a ← getattr self "_stores";
  items ← list_items a;
  alloc (ListObj items).

(** *** [class MQTTSource(MessageSource)] *)

Definition MQTTSource_logger := "forwarder.MQTTSource".

(** [__init__]; of [_setup_handlers] the store sees [self.client]. *)
Definition MQTTSource_init (host port : string) (node_names : list string)
    : M loc :=
  self ← alloc (Instance "MQTTSource" ∅);
  setattr self "host" (AStr host);;
  setattr self "port" (AStr port);;
  setattr self "node_names" (AStrList node_names);;
  setattr self "client" AClient;;
  mret self.

(** [x in self.node_names], for the list [__init__] is given. *)
Definition contains (a : attr) (x : string) : M bool :=
  match a with
  | AStrList l => mret (bool_decide (x ∈ l))
  | _ => raise TypeError
  end.

Definition string_items (a : attr) : M (list string) :=
  match a with
  | AStrList l => mret l
  | _ => raise TypeError
  end.

Definition on_connect (self : loc) : M unit :=
  emit (Log MQTTSource_logger INFO (Fmt "Connected with result code  %s"));;
  a ← getattr self "node_names";
  node_names ← string_items a;
  for_each node_names (λ node_name,
    let topic := "/" +:+ node_name +:+ "/#" in
    emit (Log MQTTSource_logger INFO
            (Fmt "Subscribing to topic %s for node_name %s"));;
    emit (Subscribe topic);;
    external (subscribe topic)).

(** The handler.  [match.group] gives a string for both names: the two
    groups take part in every match of the pattern ([parse_topic_match]
    below), so that the default is never used. *)
Definition on_message (self : loc) (msg : message) : M unit :=
  emit (Log MQTTSource_logger DEBUG
          (Fmt "Received MQTT message for topic %s with payload %s"));;
  let regex := topic_regex in
  match Re.re_match regex (topic msg) with
  | None =>
      emit (Log MQTTSource_logger WARNING
              (Fmt "Could not extract node name or measurement name from topic %s"))
  | Some mtch =>
      let v :=
        match float_ (payload msg) with
        | Some x => VFloat x
        | None => VStr (payload msg)
        end in
      let node_name := default "" (Re.group mtch "node_name") in
      a ← getattr self "node_names";
      known ← contains a node_name;
      (if negb known then
         _ ← getattr self "node_name";
         emit (Log MQTTSource_logger WARNING
                 (Fmt "Extract node_name %s from topic, but requested to receive messages for node_name %s"))
       else mret tt);;
      let measurement_name := default "" (Re.group mtch "measurement_name") in
      l ← stores self;
      items ← list_items (ARef l);
      for_each items (λ store,
        emit (StoreMsg store node_name measurement_name v);;
        store_msg store node_name measurement_name v)
  end.

(** What [main] does before [source.start()], for any number of sinks:
    build the source, then register the sinks one after the other. *)
Definition configured (host port : string) (node_names : list string)
    (sinks : list sink) : M loc :=
  source ← MQTTSource_init host port node_names;
  for_each sinks (register_store source);;
  mret source.

End Forwarder.

(** ** Reading a run *)

(** The [store_msg] invocations of a log, in the order they were made. *)
Definition invocations (evs : list event)
    : list (sink * string * string * value) :=
  omap (λ e, match e with
             | StoreMsg s n m v => Some (s, n, m, v)
             | _ => None
             end) evs.

(** One invocation with the record [(n, m, v)] for each of [sinks], in
    their order. *)
Definition fan_out (n m : string) (v : value) (sinks : list sink)
    : list (sink * string * string * value) :=
  (λ s, (s, n, m, v)) <$> sinks.

(** The [write_points] calls of a log. *)
Definition written (evs : list event) : list (nat * list point) :=
  omap (λ e, match e with
             | WritePoints c pts => Some (c, pts)
             | _ => None
             end) evs.

(** The topics subscribed to in a log, in the order of the calls. *)
Definition subscriptions (evs : list event) : list string :=
  omap (λ e, match e with
             | Subscribe t => Some t
             | _ => None
             end) evs.

(** What a caller and the outside see of a run: how it ended, the world
    and the log. *)
Definition observable {World A} (x : result A * @state World)
    : result A * World * list event :=
  (x.1, world x.2, log x.2).

(** [self] is a source built by [__init__] for [node_names]: it has no
    attribute [node_name]; it has no attribute [_stores] as long as nothing
    was registered ([registered = None]), and afterwards [_stores] refers to
    the list object holding the registered sinks. *)
Definition is_source {World} (st : @state World) (self : loc)
    (node_names : list string) (registered : option (list sink)) : Prop :=
  ∃ cls d,
    heap st !! self = Some (Instance cls d) ∧
    d !! "node_names" = Some (AStrList node_names) ∧
    d !! "node_name" = None ∧
    match registered with
    | None => d !! "_stores" = None
    | Some sinks =>
        ∃ l, d !! "_stores" = Some (ARef l) ∧
             heap st !! l = Some (ListObj sinks)
    end.

(** The value a record carries for a payload. *)
Definition record_value `{Environment World} (payload : string) : value :=
  match float_ payload with
  | Some x => VFloat x
  | None => VStr payload
  end.

(** The body of the handler's loop, and the loop with the property read
    that it iterates over (the last two lines of [on_message]). *)
Abbreviation deliver n m v :=
  (λ store : sink, emit (StoreMsg store n m v);; store_msg store n m v).

Definition dispatch `{Environment World} (self : loc) (n m : string)
    (v : value) : M unit :=
  l ← stores self;
  items ← list_items (ARef l);
  for_each items (deliver n m v).

(** A sink whose [store_msg] returns, whatever the state. *)
Definition returns_normally `{Environment World} (s : sink)
    (n m : string) (v : value) : Prop :=
  ∀ st, (store_msg s n m v st).1 = Return tt.

(** A sink whose [store_msg] raises [e], whatever the state. *)
Definition always_raises `{Environment World} (s : sink)
    (n m : string) (v : value) (e : exn) : Prop :=
  ∀ st, (store_msg s n m v st).1 = Raise e.

(** An InfluxDB client whose backend cannot be reached. *)
Definition unreachable `{Environment World} (c : nat) : Prop :=
  ∀ pts w,
    ∃ e, (write_points c pts w).1 = Some e ∧ is_ConnectionError e = true.

(** How a call that leaves the process ends, as a result. *)
Definition ended (r : option exn) : result unit :=
  match r with
  | None => Return tt
  | Some e => Raise e
  end.

(** Calls made one after the other, each in the world the one before
    left, up to the first that raises. *)
Fixpoint calls_in_order {World A} (call : A → World → option exn * World)
    (xs : list A) (w : World) : option exn * World :=
  match xs with
  | [] => (None, w)
  | x :: xs' =>
      match call x w with
      | (None, w') => calls_in_order call xs' w'
      | (Some e, w') => (Some e, w')
      end
  end.

(** What a call of [store_msg] on a sink comes to outside the process,
    and how it ends: the storage-backed sink hands its client the list of
    the one point of the record and lets out what the write raises unless
    it is a connection error; a foreign sink is given the record; the base
    class raises. *)
Definition sink_call `{Environment World} (s : sink) (n m : string)
    (v : value) (w : World) : option exn * World :=
  match s with
  | InfluxStore c =>
      let '(r, w') := write_points c [influx_point n m v] w in
      (match r with
       | Some e => if is_ConnectionError e then None else Some e
       | None => None
       end, w')
  | MessageStore => (Some NotImplementedError, w)
  | Custom i => custom_store_msg i n m v w
  end.

(** ** Reading a topic *)

(** What [on_message] takes from a topic: [None] when [regex.match] finds
    nothing, otherwise the two named groups. *)
Definition parse_topic (t : string) : option (string * string) :=
  m ← Re.re_match topic_regex t;
  node_name ← Re.group m "node_name";
  measurement_name ← Re.group m "measurement_name";
  Some (node_name, measurement_name).

(** The longest run of word characters a text starts with, and what
    follows it. *)
Fixpoint span_word (s : list ascii) : list ascii * list ascii :=
  match s with
  | c :: s' =>
      if Re.is_word c then
        let '(w, r) := span_word s' in (c :: w, r)
      else ([], s)
  | [] => ([], [])
  end.

(** The same reading without the regular expression engine: a slash, a
    run of word characters, a slash, a run of word characters; the runs are
    the longest ones and none is empty. *)
Definition topic_shape (s : list ascii) : option (list ascii * list ascii) :=
  match s with
  | "/"%char :: s1 =>
      match span_word s1 with
      | ((_ :: _) as w1, "/"%char :: s2) =>
          match span_word s2 with
          | ((_ :: _) as w2, _) => Some (w1, w2)
          | _ => None
          end
      | _ => None
      end
  | _ => None
  end.

(** The marks the engine leaves on a topic of that shape: where the two
    groups open and close. *)
Definition topic_marks (w1 w2 : list ascii) : gmap nat nat :=
  <[3 := 2 + length w1 + length w2]>
    (<[2 := 2 + length w1]> (<[1 := 1 + length w1]> (<[0 := 1]> ∅))).

(** A non-empty string of word characters. *)
Definition wordb (s : string) : bool :=
  match s with
  | "" => false
  | _ => forallb Re.is_word (list_ascii_of_string s)
  end.

(** A text that does not go on with a word character. *)
Definition off_word (s : list ascii) : bool :=
  match s with
  | c :: _ => negb (Re.is_word c)
  | [] => true
  end.

(** The topics the pattern accepts, with what it takes from them: a slash,
    the word [n], a slash, the word [m], and then the end of the topic or
    any character that is not a word character. *)
Definition accepted_shape (t n m : string) : Prop :=
  ∃ rest, t = "/" +:+ n +:+ "/" +:+ m +:+ rest ∧
          wordb n = true ∧ wordb m = true ∧
          off_word (list_ascii_of_string rest) = true.


(** The invocations a message causes on [sinks] when its topic parses,
    and none when it does not. *)
Definition calls_of `{Environment World} (sinks : list sink) (msg : message)
    : list (sink * string * string * value) :=
  match parse_topic (topic msg) with
  | Some (n, m) => fan_out n m (record_value (payload msg)) sinks
  | None => []
  end.

(** What handling a message comes to outside the process, on a source
    for [names] with [sinks] registered: nothing for a topic the pattern
    rejects, the calls on the sinks in order for a configured node, and
    the failed attribute lookup for any other node. *)
Definition handler_call `{Environment World} (names : list string)
    (sinks : list sink) (msg : message) (w : World) : option exn * World :=
  match parse_topic (topic msg) with
  | None => (None, w)
  | Some (n, m) =>
      if bool_decide (n ∈ names) then
        calls_in_order (λ s, sink_call s n m (record_value (payload msg)))
          sinks w
      else (Some (AttributeError "node_name"), w)
  end.

(** ** An environment to run the program in *)

Module Lab.

Definition digit (c : ascii) : option float :=
  let n := nat_of_ascii c in
  if ((48 <=? n) && (n <=? 57))%nat then
    ([0; 1; 2; 3; 4; 5; 6; 7; 8; 9]%float : list float) !! (n - 48)%nat
  else None.

(** Reads digits: the number so far, the power of ten counting the
    digits read, and what is left. *)
Fixpoint read_digits (s : list ascii) (acc scale : float)
    : float * float * list ascii :=
  match s with
  | c :: s' =>
      match digit c with
      | Some d => read_digits s' (acc * 10 + d)%float (scale * 10)%float
      | None => (acc, scale, s)
      end
  | [] => (acc, scale, [])
  end.

(** A [float] for plain decimal numerals such as [21.5] or [-3]; every
    other text is refused, also the exponents, the surrounding blanks,
    [nan] and [inf] that the builtin takes.  It stands for the builtin in
    the scenarios below, on whose payloads it agrees with it, and nowhere
    else: no theorem is about it. *)
Definition decimal_float (s : string) : option float :=
  let cs := list_ascii_of_string s in
  let '(neg, cs) :=
    match cs with
    | "-"%char :: r => (true, r)
    | _ => (false, cs)
    end in
  let sign (x : float) := if neg : bool then (- x)%float else x in
  match read_digits cs 0 1 with
  | (_, _, []) | (_, _, ["."%char]) =>
      match cs with
      | [] | ["."%char] => None
      | _ => Some (sign (read_digits cs 0 1).1.1)
      end
  | (i, _, "."%char :: f) =>
      match read_digits f i 1 with
      | (m, scale, []) => Some (sign (m / scale)%float)
      | _ => None
      end
  | _ => None
  end.

(** A topic filter the client takes: its only [#] is its last character. *)
Definition plain_filter (t : string) : bool :=
  bool_decide
    (filter (λ c, c = "#"%char) (list_ascii_of_string t) = ["#"%char]).

(** InfluxDB client 0 cannot reach its backend and client 1 is refused
    by it; the others write.  The foreign sink 0 lets a connection error
    out of [store_msg]; the others return.  The MQTT client raises
    [ValueError] for a filter with a [#] before its end. *)
#[export] Instance env : Environment unit := {
  float_ := decimal_float;
  write_points c _ w :=
    (match c with
     | 0 => Some ConnectionError
     | 1 => Some (InfluxDBClientError 401)
     | _ => None
     end, w);
  custom_store_msg i _ _ _ w :=
    (match i with 0 => Some ConnectionError | _ => None end, w);
  subscribe t w :=
    (if plain_filter t then None else Some (OtherException "ValueError"), w)
}.

(** The state the process starts in. *)
Definition boot : @state unit := State ∅ tt [].

(** The state once [configured] has run, and the source it built. *)
Definition started (node_names : list string) (sinks : list sink)
    : @state unit :=
  (configured "localhost" "1883" node_names sinks boot).2.

Definition source : loc := fresh (dom (heap boot)).

End Lab.

(** ** Facts about the pattern *)

Module ReFacts.
Import Re.

Lemma span_word_app s : (span_word s).1 ++ (span_word s).2 = s.
Proof.
  induction s as [|c s IH]; simpl; [done|].
  destruct (is_word c); [|done].
  destruct (span_word s) as [w r]; simpl in *. by rewrite IH.
Qed.

Lemma span_word_word s : forallb is_word (span_word s).1 = true.
Proof.
  induction s as [|c s IH]; simpl; [done|].
  destruct (is_word c) eqn:Hc; [|done].
  destruct (span_word s) as [w r]; simpl in *. by rewrite Hc.
Qed.

Lemma span_word_rest s : off_word (span_word s).2 = true.
Proof.
  induction s as [|c s IH]; simpl; [done|].
  destruct (is_word c) eqn:Hc; [|by simpl; rewrite Hc].
  by destruct (span_word s) as [w r].
Qed.

Lemma span_word_unique w r :
  forallb is_word w = true → off_word r = true → span_word (w ++ r) = (w, r).
Proof.
  intros Hw Hr. induction w as [|c w IH]; simpl in *.
  - destruct r as [|c r]; simpl in *; [done|].
    by destruct (is_word c).
  - apply andb_true_iff in Hw as [Hc Hw]. by rewrite Hc, IH.
Qed.

Section repeat.
Context {R : Type} (a : atom) (cont : list ascii → nat → option R).

Lemma max_repeat_plus s pos :
  max_repeat a 1 None cont s pos =
  match s with
  | c :: s' =>
      if accepts a c then max_repeat a 0 None cont s' (S pos) else None
  | [] => None
  end.
Proof.
  destruct s as [|c s]; simpl; [done|].
  rewrite andb_true_r.
  destruct (accepts a c); [|done].
  by destruct (max_repeat a 0 None cont s (S pos)).
Qed.

(** When the rest of the pattern cannot start on a character of the
    repeated class, the repetition takes the longest run and never
    comes back from it. *)
Lemma max_repeat_longest w r pos :
  forallb (accepts a) w = true →
  match r with c :: _ => accepts a c = false | [] => True end →
  (∀ c s' p, accepts a c = true → cont (c :: s') p = None) →
  max_repeat a 0 None cont (w ++ r) pos = cont r (pos + length w).
Proof.
  intros Hw Hr Hk. revert pos.
  induction w as [|c w IH]; intros pos; simpl in *.
  - rewrite Nat.add_0_r. destruct r as [|c r]; [done|]. simpl. by rewrite Hr.
  - apply andb_true_iff in Hw as [Hc Hw]. rewrite Hc; simpl.
    rewrite (IH Hw), (Hk c _ _ Hc).
    replace (S pos + length w) with (pos + S (length w)) by lia.
    by destruct (cont r _).
Qed.

(** When the rest of the pattern succeeds right after the longest
    run, that is the match. *)
Lemma max_repeat_greedy w r pos x :
  forallb (accepts a) w = true →
  match r with c :: _ => accepts a c = false | [] => True end →
  cont r (pos + length w) = Some x →
  max_repeat a 0 None cont (w ++ r) pos = Some x.
Proof.
  intros Hw Hr Hk. revert pos Hk.
  induction w as [|c w IH]; intros pos Hk; simpl in *.
  - rewrite Nat.add_0_r in Hk. destruct r as [|c r]; [done|]. simpl. by rewrite Hr.
  - apply andb_true_iff in Hw as [Hc Hw]. rewrite Hc; simpl.
    rewrite (IH Hw (S pos)); [done|].
    by replace (S pos + length w) with (pos + S (length w)) by lia.
Qed.
End repeat.

(** An optional last item never fails. *)
Lemma max_repeat_optional a hi (mk : gmap nat nat) s pos :
  ∃ e, max_repeat a 0 hi (λ _ p, Some (p, mk)) s pos = Some (e, mk).
Proof.
  revert hi pos. induction s as [|c s IH]; intros hi pos; simpl; [eauto|].
  destruct (accepts a c && _); [|eauto].
  destruct (IH (pred <$> hi) (S pos)) as [e ->]. eauto.
Qed.

Lemma is_word_slash c : is_word c = true → "/"%char ≠ c.
Proof. by intros Hc <-. Qed.

Lemma forallb_is_word_cons c w :
  forallb is_word (c :: w) = true ↔ is_word c = true ∧ forallb is_word w = true.
Proof. simpl. apply andb_true_iff. Qed.

(** The engine on the handler's pattern does what [topic_shape] says. *)
Lemma exec_topic_regex s :
  match topic_shape s with
  | Some (w1, w2) =>
      ∃ e, exec (code topic_regex) s 0 ∅ = Some (e, topic_marks w1 w2)
  | None => exec (code topic_regex) s 0 ∅ = None
  end.
Proof.
  unfold topic_shape, topic_regex; cbn [code exec accepts].
  destruct s as [|c s1]; [done|].
  case_bool_decide as Hc; [subst c|]; cycle 1.
  { destruct c as [[] [] [] [] [] [] [] []]; done. }
  rewrite max_repeat_plus.
  pose proof (span_word_app s1) as Happ.
  pose proof (span_word_word s1) as Hw.
  pose proof (span_word_rest s1) as Hr.
  destruct (span_word s1) as [w1 r1]; simpl in Happ, Hw, Hr; subst s1.
  destruct w1 as [|c1 w1]; simpl app.
  { destruct r1 as [|c r1]; [done|]. simpl in Hr. cbn [accepts].
    apply negb_true_iff in Hr; rewrite Hr.
    by destruct c as [[] [] [] [] [] [] [] []]. }
  apply forallb_is_word_cons in Hw as [Hc1 Hw]. cbn [accepts]; rewrite Hc1.
  rewrite max_repeat_longest; [|done| |]; cycle 1.
  { destruct r1; [done|]. by apply negb_true_iff. }
  { intros c s' p Hcw.
    by rewrite bool_decide_eq_false_2 by by apply is_word_slash. }
  destruct r1 as [|c r1]; [done|].
  case_bool_decide as Hc; [subst c|]; cycle 1.
  { destruct c as [[] [] [] [] [] [] [] []]; done. }
  rewrite max_repeat_plus.
  pose proof (span_word_app r1) as Happ.
  pose proof (span_word_word r1) as Hw2.
  pose proof (span_word_rest r1) as Hr2.
  destruct (span_word r1) as [w2 r2]; simpl in Happ, Hw2, Hr2; subst r1.
  destruct w2 as [|c2 w2]; simpl app.
  { destruct r2 as [|c r2]; [done|]. simpl in Hr2. cbn [accepts].
    apply negb_true_iff in Hr2; by rewrite Hr2. }
  apply forallb_is_word_cons in Hw2 as [Hc2 Hw2]. cbn [accepts]; rewrite Hc2.
  edestruct (max_repeat_optional (Literal "/")) as [e He].
  exists e. eapply max_repeat_greedy; [done| |].
  { destruct r2; [done|]. by apply negb_true_iff. }
  rewrite He. unfold topic_marks. simpl length.
  by replace (S (S (2 + length w1)) + length w2)
    with (2 + S (length w1) + S (length w2)) by lia.
Qed.

Lemma topic_shape_Some s w1 w2 :
  topic_shape s = Some (w1, w2) ↔
  ∃ r, s = "/"%char :: w1 ++ "/"%char :: w2 ++ r ∧
       w1 ≠ [] ∧ w2 ≠ [] ∧
       forallb is_word w1 = true ∧ forallb is_word w2 = true ∧
       off_word r = true.
Proof.
  split.
  - unfold topic_shape. destruct s as [|c s1]; [done|].
    destruct (decide (c = "/"%char)) as [->|Hc]; cycle 1.
    { by destruct c as [[] [] [] [] [] [] [] []]. }
    pose proof (span_word_app s1) as Happ.
    pose proof (span_word_word s1) as Hw.
    destruct (span_word s1) as [[|c1 w1'] r1]; [done|].
    simpl in Happ, Hw. destruct r1 as [|c r1]; [done|].
    destruct (decide (c = "/"%char)) as [->|Hc]; cycle 1.
    { by destruct c as [[] [] [] [] [] [] [] []]. }
    pose proof (span_word_app r1) as Happ2.
    pose proof (span_word_word r1) as Hw2.
    pose proof (span_word_rest r1) as Hr2.
    destruct (span_word r1) as [[|c2 w2'] r2]; [done|].
    simpl in Happ2, Hw2, Hr2. intros [= <- <-].
    exists r2. by rewrite <- Happ, <- Happ2.
  - intros (r & -> & Hn1 & Hn2 & Hw1 & Hw2 & Hr).
    unfold topic_shape.
    rewrite (span_word_unique w1 ("/"%char :: w2 ++ r)) by done.
    destruct w1 as [|c1 w1]; [done|].
    rewrite (span_word_unique w2 r) by done.
    by destruct w2.
Qed.

Lemma topic_marks_lookup w1 w2 :
  topic_marks w1 w2 !! 0 = Some 1 ∧
  topic_marks w1 w2 !! 1 = Some (1 + length w1) ∧
  topic_marks w1 w2 !! 2 = Some (2 + length w1) ∧
  topic_marks w1 w2 !! 3 = Some (2 + length w1 + length w2).
Proof. unfold topic_marks. by simplify_map_eq. Qed.

(** [regex.match] and the two [group] calls of the handler. *)
Lemma re_match_topic_regex t :
  match topic_shape (list_ascii_of_string t) with
  | Some (w1, w2) =>
      ∃ m, re_match topic_regex t = Some m ∧
           group m "node_name" = Some (string_of_list_ascii w1) ∧
           group m "measurement_name" = Some (string_of_list_ascii w2)
  | None => re_match topic_regex t = None
  end.
Proof.
  unfold re_match.
  pose proof (exec_topic_regex (list_ascii_of_string t)) as Hexec.
  destruct (topic_shape (list_ascii_of_string t)) as [[w1 w2]|] eqn:Hshape;
    [|by rewrite Hexec].
  destruct Hexec as [e ->]. eexists; split; [done|].
  apply topic_shape_Some in Hshape as (r & -> & _).
  destruct (topic_marks_lookup w1 w2) as (H0 & H1 & H2 & H3).
  unfold group, group_span; cbn [names marks subject].
  change (groupindex topic_regex !! "node_name") with (Some 1).
  change (groupindex topic_regex !! "measurement_name") with (Some 2).
  cbn [mbind option_bind]. simpl Nat.mul. simpl Nat.add.
  rewrite H0, H1, H2, H3. cbn [mbind option_bind].
  split; do 2 f_equal.
  - replace (1 + length w1 - 1) with (length w1) by lia.
    simpl drop. by rewrite drop_0, take_app_length.
  - replace (2 + length w1 + length w2 - (2 + length w1))
      with (length w2) by lia.
    change (2 + length w1) with (S (S (length w1))). cbn [drop].
    change (w1 ++ "/"%char :: w2 ++ r) with (w1 ++ ["/"%char] ++ w2 ++ r).
    rewrite app_assoc, drop_app_length' by (rewrite length_app; simpl; lia).
    by rewrite take_app_length.
Qed.

End ReFacts.

(** ** Facts about runs *)

(** Unfolding the plumbing of [M]. *)
Ltac run_M :=
  cbv [mbind M_bind bind mret M_ret ret raise emit external try_except];
  cbn [heap world log fst snd].

(** Going on after a lookup was rewritten. *)
Ltac next_M := cbv beta iota zeta; cbn [heap world log fst snd negb].

(** Case analysis on the answer of the outside. *)
Ltac case_outside :=
  match goal with
  | |- context [write_points ?c ?pts ?w] =>
      destruct (write_points c pts w) as [[?e|] ?w']
  | |- context [custom_store_msg ?i ?n ?m ?v ?w] =>
      destruct (custom_store_msg i n m v w) as [[?e|] ?w']
  end.

Section Runs.

Context `{Environment World}.

Lemma invocations_app (a b : list event) :
  invocations (a ++ b) = invocations a ++ invocations b.
Proof. apply omap_app. Qed.

Lemma written_app (a b : list event) :
  written (a ++ b) = written a ++ written b.
Proof. apply omap_app. Qed.

(** [store_msg] neither reads nor changes the object store. *)
Lemma store_msg_heap s n m v (h h' : gmap loc object) w l :
  store_msg s n m v (State h' w l) =
  let x := store_msg s n m v (State h w l) in
  (x.1, State h' (world x.2) (log x.2)).
Proof.
  destruct s as [c| |i]; cbn.
  - unfold InfluxStore_store_msg; run_M.
    case_outside; cbn; [|done].
    by destruct (is_ConnectionError e).
  - done.
  - run_M. by case_outside.
Qed.

Lemma store_msg_heap_same s n m v (st : @state World) :
  heap (store_msg s n m v st).2 = heap st.
Proof.
  destruct st as [h w l]. by rewrite (store_msg_heap s n m v h h).
Qed.

(** [store_msg] invokes no sink. *)
Lemma store_msg_invocations s n m v (st : @state World) :
  invocations (log (store_msg s n m v st).2) = invocations (log st).
Proof.
  destruct st as [h w l]. destruct s as [c| |i]; cbn.
  - unfold InfluxStore_store_msg; run_M.
    case_outside; cbn.
    + destruct (is_ConnectionError e); cbn;
        rewrite !invocations_app; cbn; by rewrite !app_nil_r.
    + rewrite !invocations_app; cbn; by rewrite !app_nil_r.
  - done.
  - run_M. by case_outside.
Qed.

(** One turn of the loop. *)
Lemma for_each_cons s sinks n m v (st : @state World) :
  for_each (s :: sinks) (deliver n m v) st =
  let x := store_msg s n m v
             (State (heap st) (world st) (log st ++ [StoreMsg s n m v])) in
  match x.1 with
  | Return _ => for_each sinks (deliver n m v) x.2
  | Raise e => (Raise e, x.2)
  end.
Proof.
  cbn [for_each]. run_M.
  by destruct (store_msg s n m v _) as [[[]|e] st'].
Qed.

(** The loop neither reads nor changes the object store. *)
Lemma for_each_heap sinks n m v (h h' : gmap loc object) w l :
  for_each sinks (deliver n m v) (State h' w l) =
  let x := for_each sinks (deliver n m v) (State h w l) in
  (x.1, State h' (world x.2) (log x.2)).
Proof.
  revert w l. induction sinks as [|s sinks IH]; intros w l; [done|].
  rewrite !for_each_cons; cbn [heap world log].
  rewrite (store_msg_heap s n m v h h').
  pose proof (store_msg_heap_same s n m v (State h w (l ++ [StoreMsg s n m v]))) as Hh.
  destruct (store_msg s n m v (State h w _)) as [[[]|e] [h1 w1 l1]];
    cbn in *; [|done].
  subst h1. apply IH.
Qed.

(** The invocations made are those of a prefix of the sinks, all with the
    same record; the first sink is always invoked. *)
Lemma for_each_invocations sinks n m v (st : @state World) :
  ∃ k, (k ≤ length sinks)%nat ∧ (sinks ≠ [] → (0 < k)%nat) ∧
       invocations (log (for_each sinks (deliver n m v) st).2) =
       invocations (log st) ++ fan_out n m v (take k sinks).
Proof.
  revert st. induction sinks as [|s sinks IH]; intros st.
  { exists 0. cbn. by rewrite app_nil_r. }
  rewrite for_each_cons. cbn zeta.
  pose proof (store_msg_invocations s n m v
    (State (heap st) (world st) (log st ++ [StoreMsg s n m v]))) as Hinv.
  cbn [log] in Hinv. rewrite invocations_app in Hinv. cbn in Hinv.
  destruct (store_msg s n m v _) as [[[]|e] st1]; cbn [fst snd] in *.
  - destruct (IH st1) as (k & Hk & _ & ->). exists (S k).
    rewrite Hinv, <- app_assoc. cbn. split; [lia|split; [lia|done]].
  - exists 1. rewrite Hinv. cbn. split; [lia|split; [lia|done]].
Qed.

(** Sinks that return hand over to the sinks after them. *)
Lemma for_each_prefix before rest n m v (st : @state World) :
  Forall (λ s, returns_normally s n m v) before →
  ∃ st1,
    for_each (before ++ rest) (deliver n m v) st =
      for_each rest (deliver n m v) st1 ∧
    heap st1 = heap st ∧
    invocations (log st1) = invocations (log st) ++ fan_out n m v before.
Proof.
  intros Hall. revert st.
  induction Hall as [|s before Hs _ IH]; intros st; cbn [app].
  { exists st. cbn. by rewrite app_nil_r. }
  rewrite for_each_cons. cbn zeta.
  pose proof (store_msg_invocations s n m v
    (State (heap st) (world st) (log st ++ [StoreMsg s n m v]))) as Hinv.
  pose proof (store_msg_heap_same s n m v
    (State (heap st) (world st) (log st ++ [StoreMsg s n m v]))) as Hheap.
  cbn [log heap] in Hinv, Hheap. rewrite invocations_app in Hinv. cbn in Hinv.
  specialize (Hs (State (heap st) (world st) (log st ++ [StoreMsg s n m v]))).
  destruct (store_msg s n m v _) as [r st1]; cbn [fst snd] in *. subst r.
  destruct (IH st1) as (st2 & -> & Hh & Hinv2). exists st2.
  split; [done|]. split; [congruence|].
  by rewrite Hinv2, Hinv, <- app_assoc.
Qed.

(** Sinks that return are all invoked, in order. *)
Lemma for_each_all_return sinks n m v (st : @state World) :
  Forall (λ s, returns_normally s n m v) sinks →
  (for_each sinks (deliver n m v) st).1 = Return tt ∧
  invocations (log (for_each sinks (deliver n m v) st).2) =
    invocations (log st) ++ fan_out n m v sinks.
Proof.
  intros Hall. revert st.
  induction Hall as [|s sinks Hs _ IH]; intros st.
  { cbn. by rewrite app_nil_r. }
  rewrite for_each_cons. cbn zeta.
  pose proof (store_msg_invocations s n m v
    (State (heap st) (world st) (log st ++ [StoreMsg s n m v]))) as Hinv.
  cbn [log] in Hinv. rewrite invocations_app in Hinv. cbn in Hinv.
  specialize (Hs (State (heap st) (world st) (log st ++ [StoreMsg s n m v]))).
  destruct (store_msg s n m v _) as [r st1]; cbn [fst snd] in *. subst r.
  destruct (IH st1) as [-> ->]. split; [done|].
  by rewrite Hinv, <- app_assoc.
Qed.

(** The first sink that raises ends the loop: the sinks after it are not
    invoked. *)
Lemma for_each_raise before s after n m v e (st : @state World) :
  Forall (λ s, returns_normally s n m v) before →
  always_raises s n m v e →
  (for_each (before ++ s :: after) (deliver n m v) st).1 = Raise e ∧
  invocations (log (for_each (before ++ s :: after) (deliver n m v) st).2) =
    invocations (log st) ++ fan_out n m v (before ++ [s]).
Proof.
  intros Hall Hs. revert st.
  induction Hall as [|s0 before Hs0 _ IH]; intros st; cbn [app].
  - rewrite for_each_cons. cbn zeta.
    pose proof (store_msg_invocations s n m v
      (State (heap st) (world st) (log st ++ [StoreMsg s n m v]))) as Hinv.
    cbn [log] in Hinv. rewrite invocations_app in Hinv. cbn in Hinv.
    specialize (Hs (State (heap st) (world st) (log st ++ [StoreMsg s n m v]))).
    destruct (store_msg s n m v _) as [r st1]; cbn [fst snd] in *. by subst r.
  - rewrite for_each_cons. cbn zeta.
    pose proof (store_msg_invocations s0 n m v
      (State (heap st) (world st) (log st ++ [StoreMsg s0 n m v]))) as Hinv.
    cbn [log] in Hinv. rewrite invocations_app in Hinv. cbn in Hinv.
    specialize (Hs0 (State (heap st) (world st) (log st ++ [StoreMsg s0 n m v]))).
    destruct (store_msg s0 n m v _) as [r st1]; cbn [fst snd] in *. subst r.
    destruct (IH st1) as [-> ->]. split; [done|].
    by rewrite Hinv, <- app_assoc.
Qed.

(** [parse_topic] against the steps the handler takes. *)
Lemma parse_topic_match t :
  match parse_topic t with
  | Some (n, m) =>
      ∃ mtch, Re.re_match topic_regex t = Some mtch ∧
              Re.group mtch "node_name" = Some n ∧
              Re.group mtch "measurement_name" = Some m
  | None => Re.re_match topic_regex t = None
  end.
Proof.
  unfold parse_topic.
  pose proof (ReFacts.re_match_topic_regex t) as Hre.
  destruct (topic_shape (list_ascii_of_string t)) as [[w1 w2]|].
  - destruct Hre as (mtch & -> & Hn & Hm). cbn. rewrite Hn, Hm. cbn. eauto.
  - by rewrite Hre.
Qed.

Lemma parse_topic_shape t :
  parse_topic t =
  (λ '(w1, w2), (string_of_list_ascii w1, string_of_list_ascii w2))
    <$> topic_shape (list_ascii_of_string t).
Proof.
  unfold parse_topic.
  pose proof (ReFacts.re_match_topic_regex t) as Hre.
  destruct (topic_shape (list_ascii_of_string t)) as [[w1 w2]|].
  - destruct Hre as (mtch & -> & Hn & Hm). cbn. by rewrite Hn, Hm.
  - by rewrite Hre.
Qed.

Local Abbreviation received :=
  (Log MQTTSource_logger DEBUG
     (Fmt "Received MQTT message for topic %s with payload %s")).

(** A topic the pattern does not match: a warning, and nothing else. *)
Lemma on_message_unparsed (st : @state World) self msg :
  parse_topic (topic msg) = None →
  on_message self msg st =
  (Return tt,
   State (heap st) (world st)
     (log st ++
      [received;
       Log MQTTSource_logger WARNING
         (Fmt "Could not extract node name or measurement name from topic %s")])).
Proof.
  intros Hparse. pose proof (parse_topic_match (topic msg)) as Hre.
  rewrite Hparse in Hre. unfold on_message. rewrite Hre. run_M.
  by rewrite <- app_assoc.
Qed.

(** A node that is not configured: evaluating the arguments of the
    warning fails on [self.node_name]. *)
Lemma on_message_unknown (st : @state World) self names regs msg n m :
  is_source st self names regs →
  parse_topic (topic msg) = Some (n, m) →
  n ∉ names →
  on_message self msg st =
  (Raise (AttributeError "node_name"),
   State (heap st) (world st) (log st ++ [received])).
Proof.
  intros (cls & d & Hself & Hnames & Hnone & _) Hparse Hn.
  pose proof (parse_topic_match (topic msg)) as Hre.
  rewrite Hparse in Hre. destruct Hre as (mtch & Hre & Hgn & Hgm).
  unfold on_message. rewrite Hre, Hgn. cbn [default].
  unfold getattr, contains. run_M. rewrite Hself, Hnames. next_M.
  rewrite bool_decide_eq_false_2 by done. next_M.
  by rewrite Hself, Hnone.
Qed.

(** A configured node on a source with registered sinks: the handler comes
    down to the loop over a copy of the list. *)
Lemma on_message_known (st : @state World) self names sinks msg n m :
  is_source st self names (Some sinks) →
  parse_topic (topic msg) = Some (n, m) →
  n ∈ names →
  on_message self msg st =
  for_each sinks (deliver n m (record_value (payload msg)))
    (State (<[fresh (dom (heap st)) := ListObj sinks]> (heap st))
       (world st) (log st ++ [received])).
Proof.
  intros (cls & d & Hself & Hnames & Hnone & l & Hl & Hitems) Hparse Hn.
  pose proof (parse_topic_match (topic msg)) as Hre.
  rewrite Hparse in Hre. destruct Hre as (mtch & Hre & Hgn & Hgm).
  unfold on_message. rewrite Hre, Hgn, Hgm. cbn [default].
  unfold stores, getattr, contains, list_items, alloc. run_M.
  rewrite Hself, Hnames. next_M.
  rewrite bool_decide_eq_true_2 by done. next_M.
  rewrite Hself, Hl. next_M. rewrite Hitems. next_M.
  by rewrite lookup_insert_eq.
Qed.

(** A configured node on a source nothing was registered on. *)
Lemma on_message_unregistered (st : @state World) self names msg n m :
  is_source st self names None →
  parse_topic (topic msg) = Some (n, m) →
  n ∈ names →
  on_message self msg st =
  (Raise (AttributeError "_stores"),
   State (heap st) (world st) (log st ++ [received])).
Proof.
  intros (cls & d & Hself & Hnames & Hnone & Hl) Hparse Hn.
  pose proof (parse_topic_match (topic msg)) as Hre.
  rewrite Hparse in Hre. destruct Hre as (mtch & Hre & Hgn & Hgm).
  unfold on_message. rewrite Hre, Hgn, Hgm. cbn [default].
  unfold stores, getattr, contains, list_items, alloc. run_M.
  rewrite Hself, Hnames. next_M.
  rewrite bool_decide_eq_true_2 by done. next_M.
  by rewrite Hself, Hl.
Qed.

(** *** The source in the object store *)

Lemma fresh_unused (h : gmap loc object) : h !! fresh (dom h) = None.
Proof. apply not_elem_of_dom, is_fresh. Qed.

(** Being a source only depends on the objects that were there. *)
Lemma is_source_frame (st st' : @state World) self names regs :
  is_source st self names regs →
  (∀ l o, heap st !! l = Some o → heap st' !! l = Some o) →
  is_source st' self names regs.
Proof.
  intros (cls & d & Hself & Hnames & Hnone & Hregs) Hframe.
  exists cls, d. repeat split; [by apply Hframe|done|done|].
  destruct regs as [sinks|]; [|done].
  destruct Hregs as (l & Hl & Hitems). exists l. split; [done|by apply Hframe].
Qed.

Lemma is_source_alloc (st : @state World) self names regs l o (w : World) lg :
  is_source st self names regs →
  heap st !! l = None →
  is_source (State (<[l := o]> (heap st)) w lg) self names regs.
Proof.
  intros Hsrc Hl. apply (is_source_frame st); [done|].
  intros l0 o0 Hl0. cbn. rewrite lookup_insert_ne; [done|congruence].
Qed.

(** [__init__] builds a source nothing is registered on. *)
Lemma MQTTSource_init_source (st : @state World) host port names :
  (MQTTSource_init host port names st).1 = Return (fresh (dom (heap st))) ∧
  world (MQTTSource_init host port names st).2 = world st ∧
  log (MQTTSource_init host port names st).2 = log st ∧
  is_source (MQTTSource_init host port names st).2
    (fresh (dom (heap st))) names None.
Proof.
  unfold MQTTSource_init, alloc, setattr. run_M.
  rewrite lookup_insert_eq. next_M.
  rewrite lookup_insert_eq. next_M.
  rewrite lookup_insert_eq. next_M.
  rewrite lookup_insert_eq. next_M.
  do 3 (split; [done|]).
  eexists _, _. cbn [heap]. split; [apply lookup_insert_eq|].
  by simplify_map_eq.
Qed.

(** [register_store] appends; the first call creates the list. *)
Lemma register_store_source (st : @state World) self names regs store :
  is_source st self names regs →
  (register_store self store st).1 = Return tt ∧
  world (register_store self store st).2 = world st ∧
  log (register_store self store st).2 = log st ∧
  is_source (register_store self store st).2 self names
    (Some (default [] regs ++ [store])).
Proof.
  intros (cls & d & Hself & Hnames & Hnone & Hregs).
  unfold register_store, hasattr, alloc, setattr, getattr, list_append. run_M.
  rewrite Hself. destruct regs as [sinks|]; cbn [default].
  - destruct Hregs as (l & Hl & Hitems).
    rewrite Hl, bool_decide_eq_true_2 by done. next_M.
    rewrite Hself, Hl. next_M. rewrite Hitems. next_M.
    do 3 (split; [done|]).
    assert (l ≠ self) by congruence.
    exists cls, d. cbn [heap]. rewrite lookup_insert_ne by done.
    repeat split; [done..|]. exists l. by rewrite lookup_insert_eq.
  - rewrite Hregs, bool_decide_eq_false_2 by (by intros [? ?]). next_M.
    pose proof (fresh_unused (heap st)) as Hfresh.
    set (l := fresh (dom (heap st))) in *.
    assert (l ≠ self) by congruence.
    rewrite lookup_insert_ne, Hself by done. next_M.
    rewrite lookup_insert_eq. next_M. rewrite lookup_insert_eq. next_M.
    rewrite lookup_insert_ne, lookup_insert_eq by done. next_M.
    do 3 (split; [done|]).
    eexists cls, _. cbn [heap].
    rewrite lookup_insert_ne, lookup_insert_eq by done.
    split; [done|]. rewrite !lookup_insert_ne by done.
    repeat split; [done..|]. exists l.
    by rewrite !lookup_insert_eq.
Qed.

(** The [stores] property on a source with registered sinks: a new list
    object with the same items. *)
Lemma stores_copy (st : @state World) self names sinks :
  is_source st self names (Some sinks) →
  stores self st =
  (Return (fresh (dom (heap st))),
   State (<[fresh (dom (heap st)) := ListObj sinks]> (heap st))
     (world st) (log st)).
Proof.
  intros (cls & d & Hself & Hnames & Hnone & l & Hl & Hitems).
  unfold stores, getattr, list_items, alloc. run_M.
  rewrite Hself, Hl. next_M. by rewrite Hitems.
Qed.

(** The [stores] property on a source nothing was registered on. *)
Lemma stores_unregistered (st : @state World) self names :
  is_source st self names None →
  stores self st = (Raise (AttributeError "_stores"), st).
Proof.
  intros (cls & d & Hself & Hnames & Hnone & Hl).
  unfold stores, getattr, list_items, alloc. run_M.
  by rewrite Hself, Hl.
Qed.

(** The handler leaves the source as it found it. *)
Lemma on_message_source (st : @state World) self names regs msg :
  is_source st self names regs →
  is_source (on_message self msg st).2 self names regs.
Proof.
  intros Hsrc.
  destruct (parse_topic (topic msg)) as [[n m]|] eqn:Hparse; cycle 1.
  { rewrite on_message_unparsed by done.
    by apply (is_source_frame st). }
  destruct (decide (n ∈ names)) as [Hn|Hn]; cycle 1.
  { rewrite (on_message_unknown st self names regs msg n m) by done.
    by apply (is_source_frame st). }
  destruct regs as [sinks|]; cycle 1.
  { rewrite (on_message_unregistered st self names msg n m) by done.
    by apply (is_source_frame st). }
  rewrite (on_message_known st self names sinks msg n m) by done.
  set (h' := <[_ := _]> (heap st)).
  rewrite (for_each_heap sinks n m _ h' h'). cbn zeta.
  eapply is_source_alloc; [done|apply fresh_unused].
Qed.

(** What the handler does depends on the source, the world and the log;
    other objects do not matter. *)
Lemma on_message_observable (st1 st2 : @state World) self names regs msg :
  is_source st1 self names regs →
  is_source st2 self names regs →
  world st1 = world st2 →
  log st1 = log st2 →
  observable (on_message self msg st1) = observable (on_message self msg st2).
Proof.
  intros Hsrc1 Hsrc2 Hw Hl.
  destruct (parse_topic (topic msg)) as [[n m]|] eqn:Hparse; cycle 1.
  { rewrite !on_message_unparsed by done. unfold observable; cbn.
    by rewrite Hw, Hl. }
  destruct (decide (n ∈ names)) as [Hn|Hn]; cycle 1.
  { rewrite (on_message_unknown st1 self names regs msg n m) by done.
    rewrite (on_message_unknown st2 self names regs msg n m) by done.
    unfold observable; cbn. by rewrite Hw, Hl. }
  destruct regs as [sinks|]; cycle 1.
  { rewrite (on_message_unregistered st1 self names msg n m) by done.
    rewrite (on_message_unregistered st2 self names msg n m) by done.
    unfold observable; cbn. by rewrite Hw, Hl. }
  rewrite (on_message_known st1 self names sinks msg n m) by done.
  rewrite (on_message_known st2 self names sinks msg n m) by done.
  rewrite Hw, Hl.
  set (h1 := <[_ := _]> (heap st1)). set (h2 := <[_ := _]> (heap st2)).
  by rewrite (for_each_heap sinks n m _ h2 h1).
Qed.

(** Registering sinks one after the other. *)
Lemma for_each_register (st : @state World) self names regs sinks :
  is_source st self names regs →
  (for_each sinks (register_store self) st).1 = Return tt ∧
  world (for_each sinks (register_store self) st).2 = world st ∧
  log (for_each sinks (register_store self) st).2 = log st ∧
  is_source (for_each sinks (register_store self) st).2 self names
    (match sinks with [] => regs | _ => Some (default [] regs ++ sinks) end).
Proof.
  revert st regs. induction sinks as [|s sinks IH]; intros st regs Hsrc.
  { done. }
  destruct (register_store_source st self names regs s Hsrc)
    as (Hr & Hw & Hl & Hsrc1).
  cbn [for_each]. unfold mbind, M_bind, bind.
  destruct (register_store self s st) as [r st1]; cbn [fst snd] in *.
  subst r. destruct (IH st1 _ Hsrc1) as (Hr2 & Hw2 & Hl2 & Hsrc2).
  rewrite Hw2, Hl2. do 3 (split; [done|]).
  destruct sinks as [|s' sinks]; [done|].
  cbn in Hsrc2. by rewrite <- app_assoc in Hsrc2.
Qed.

(** What [main] sets up. *)
Lemma configured_source (st : @state World) host port names sinks :
  (configured host port names sinks st).1 = Return (fresh (dom (heap st))) ∧
  world (configured host port names sinks st).2 = world st ∧
  log (configured host port names sinks st).2 = log st ∧
  is_source (configured host port names sinks st).2 (fresh (dom (heap st)))
    names (match sinks with [] => None | _ => Some sinks end).
Proof.
  destruct (MQTTSource_init_source st host port names)
    as (Hr & Hw & Hl & Hsrc0).
  unfold configured, mbind, M_bind, bind, mret, M_ret, ret.
  destruct (MQTTSource_init host port names st) as [r st0];
    cbn [fst snd] in *. subst r.
  destruct (for_each_register st0 _ names None sinks Hsrc0)
    as (Hr2 & Hw2 & Hl2 & Hsrc).
  destruct (for_each sinks _ st0) as [r st1]; cbn [fst snd] in *. subst r.
  cbn [fst snd]. do 3 (split; [congruence|]). by destruct sinks.
Qed.

End Runs.

(** ** Topics as strings *)

Section Topics.

Lemma list_ascii_of_string_app (a b : string) :
  list_ascii_of_string (a +:+ b) =
  list_ascii_of_string a ++ list_ascii_of_string b.
Proof. induction a as [|c a IH]; simpl; [done|]. by f_equal. Qed.

Lemma string_of_list_ascii_app (a b : list ascii) :
  string_of_list_ascii (a ++ b) =
  string_of_list_ascii a +:+ string_of_list_ascii b.
Proof. induction a as [|c a IH]; simpl; [done|]. by rewrite IH. Qed.


Lemma wordb_chars (s : string) :
  wordb s = true ↔
  list_ascii_of_string s ≠ [] ∧
  forallb Re.is_word (list_ascii_of_string s) = true.
Proof.
  destruct s as [|c s]; cbn.
  - split; [done|by intros []].
  - split; [done|by intros [_ ?]].
Qed.

(** The pattern accepts exactly the topics of [accepted_shape]. *)
Lemma parse_topic_accepted t n m :
  parse_topic t = Some (n, m) ↔ accepted_shape t n m.
Proof.
  rewrite parse_topic_shape. split.
  - destruct (topic_shape (list_ascii_of_string t)) as [[w1 w2]|] eqn:Hshape;
      [|done].
    intros [= <- <-].
    apply ReFacts.topic_shape_Some in Hshape
      as (r & Ht & Hn1 & Hn2 & Hw1 & Hw2 & Hr).
    exists (string_of_list_ascii r). split; [|split; [|split]].
    + rewrite <- (string_of_list_ascii_of_string t), Ht.
      change ("/"%char :: w1 ++ "/"%char :: w2 ++ r)
        with (["/"%char] ++ w1 ++ ["/"%char] ++ w2 ++ r).
      by rewrite !string_of_list_ascii_app.
    + apply wordb_chars. by rewrite list_ascii_of_string_of_list_ascii.
    + apply wordb_chars. by rewrite list_ascii_of_string_of_list_ascii.
    + by rewrite list_ascii_of_string_of_list_ascii.
  - intros (rest & -> & [Hn1 Hw1]%wordb_chars & [Hn2 Hw2]%wordb_chars & Hr).
    assert (topic_shape (list_ascii_of_string ("/" +:+ n +:+ "/" +:+ m +:+ rest))
            = Some (list_ascii_of_string n, list_ascii_of_string m)) as ->.
    { apply ReFacts.topic_shape_Some. exists (list_ascii_of_string rest).
      repeat split; try done.
      by rewrite !list_ascii_of_string_app. }
    cbn. by rewrite !string_of_list_ascii_of_string.
Qed.


End Topics.

(** ** The handler in any state *)

Section AnyState.

Context `{Environment World}.

(** The handler, with its loop named. *)
Lemma on_message_dispatch self msg :
  on_message self msg =
  (emit (Log MQTTSource_logger DEBUG
           (Fmt "Received MQTT message for topic %s with payload %s"));;
   match Re.re_match topic_regex (topic msg) with
   | None =>
       emit (Log MQTTSource_logger WARNING
               (Fmt "Could not extract node name or measurement name from topic %s"))
   | Some mtch =>
       a ← getattr self "node_names";
       known ← contains a (default "" (Re.group mtch "node_name"));
       (if negb known then
          _ ← getattr self "node_name";
          emit (Log MQTTSource_logger WARNING
                  (Fmt "Extract node_name %s from topic, but requested to receive messages for node_name %s"))
        else mret tt);;
       dispatch self (default "" (Re.group mtch "node_name"))
         (default "" (Re.group mtch "measurement_name"))
         (record_value (payload msg))
   end).
Proof. reflexivity. Qed.

(** Whatever the object store holds, the loop either cannot start or
    runs over the items of some list. *)
Lemma dispatch_any (st : @state World) self n m v :
  (∃ e, dispatch self n m v st = (Raise e, st)) ∨
  (∃ items h',
     dispatch self n m v st =
     for_each items (deliver n m v) (State h' (world st) (log st))).
Proof.
  unfold dispatch, stores, getattr, list_items, alloc. run_M.
  destruct (heap st !! self) as [[cls d|items0]|]; next_M;
    try (left; by eexists).
  destruct (d !! "_stores") as [[s|sl|l0|]|]; next_M;
    try (left; by eexists).
  destruct (heap st !! l0) as [[cls0 d0|items]|]; next_M;
    try (left; by eexists).
  rewrite lookup_insert_eq. next_M. right. by eexists _, _.
Qed.

(** Whatever the object store holds, the handler either stops before the
    loop, having invoked no sink, or runs the loop with the value made of
    the payload. *)
Lemma on_message_any (st : @state World) self msg :
  (∃ r lg, on_message self msg st =
             (r, State (heap st) (world st) (log st ++ lg)) ∧
           invocations lg = []) ∨
  (∃ n m items h' lg,
     on_message self msg st =
       for_each items (deliver n m (record_value (payload msg)))
         (State h' (world st) (log st ++ lg)) ∧
     invocations lg = []).
Proof.
  rewrite on_message_dispatch. unfold getattr, contains. run_M.
  destruct (Re.re_match topic_regex (topic msg)) as [mtch|]; next_M.
  2:{ left. eexists _, [_; _]. split; [by rewrite <- app_assoc|done]. }
  set (n := default "" (Re.group mtch "node_name")).
  set (m := default "" (Re.group mtch "measurement_name")).
  assert (∀ lg, invocations lg = [] →
    (∃ r lg', dispatch self n m (record_value (payload msg))
                (State (heap st) (world st) (log st ++ lg))
              = (r, State (heap st) (world st) (log st ++ lg')) ∧
              invocations lg' = []) ∨
    (∃ n0 m0 items h' lg',
        dispatch self n m (record_value (payload msg))
          (State (heap st) (world st) (log st ++ lg))
        = for_each items (deliver n0 m0 (record_value (payload msg)))
            (State h' (world st) (log st ++ lg')) ∧
        invocations lg' = [])) as Hloop.
  { intros lg Hlg.
    destruct (dispatch_any (State (heap st) (world st) (log st ++ lg))
                self n m (record_value (payload msg)))
      as [[e ->]|(items & h' & ->)].
    - left. by eexists _, lg.
    - right. by eexists n, m, items, h', lg. }
  destruct (heap st !! self) as [[cls d|items0]|] eqn:Hself; next_M;
    try (left; by eexists _, [_]).
  destruct (d !! "node_names") as [[s|l|l0|]|] eqn:Hnames; next_M;
    try (left; by eexists _, [_]).
  destruct (bool_decide _); next_M.
  - by apply Hloop.
  - rewrite Hself. destruct (d !! "node_name"); next_M.
    + rewrite <- app_assoc. by apply Hloop.
    + left. by eexists _, [_].
Qed.

End AnyState.

(** ** The calls that leave the process *)

Section Calls.

Context `{Environment World}.

(** A call of [store_msg], as the outside sees it. *)
Lemma store_msg_call s n m v (st : @state World) :
  (store_msg s n m v st).1 = ended (sink_call s n m v (world st)).1 ∧
  world (store_msg s n m v st).2 = (sink_call s n m v (world st)).2.
Proof.
  destruct st as [h w l].
  destruct s as [c| |i]; cbn [store_msg sink_call world].
  - unfold InfluxStore_store_msg. run_M.
    case_outside; next_M; [destruct (is_ConnectionError e)|]; done.
  - done.
  - run_M. by case_outside.
Qed.

(** The loop of the handler, as the outside sees it: the sinks are
    called in order, each in the world the one before left, up to the
    first that raises; when none raises, all were invoked. *)
Lemma for_each_calls sinks n m v (st : @state World) :
  (for_each sinks (deliver n m v) st).1 =
    ended (calls_in_order (λ s, sink_call s n m v) sinks (world st)).1 ∧
  world (for_each sinks (deliver n m v) st).2 =
    (calls_in_order (λ s, sink_call s n m v) sinks (world st)).2 ∧
  ((calls_in_order (λ s, sink_call s n m v) sinks (world st)).1 = None →
   invocations (log (for_each sinks (deliver n m v) st).2) =
     invocations (log st) ++ fan_out n m v sinks).
Proof.
  revert st. induction sinks as [|s sinks IH]; intros st.
  { cbn. by rewrite app_nil_r. }
  rewrite for_each_cons. cbn zeta. cbn [calls_in_order].
  pose proof (store_msg_call s n m v
    (State (heap st) (world st) (log st ++ [StoreMsg s n m v]))) as [Hr Hw].
  pose proof (store_msg_invocations s n m v
    (State (heap st) (world st) (log st ++ [StoreMsg s n m v]))) as Hinv.
  cbn [world log] in Hr, Hw, Hinv. rewrite invocations_app in Hinv.
  cbn in Hinv.
  destruct (sink_call s n m v (world st)) as [[e|] w'];
    destruct (store_msg s n m v _) as [r st1]; cbn [fst snd ended] in *;
    subst r.
  - by repeat split.
  - subst w'. destruct (IH st1) as (IHr & IHw & IHinv).
    split; [done|]. split; [done|]. intros Hnone.
    by rewrite (IHinv Hnone), Hinv, <- app_assoc.
Qed.

(** The handler on a configured node, as the outside sees it. *)
Lemma on_message_calls (st : @state World) self names sinks msg n m :
  is_source st self names (Some sinks) →
  parse_topic (topic msg) = Some (n, m) →
  n ∈ names →
  (on_message self msg st).1 =
    ended (calls_in_order (λ s, sink_call s n m (record_value (payload msg)))
             sinks (world st)).1 ∧
  world (on_message self msg st).2 =
    (calls_in_order (λ s, sink_call s n m (record_value (payload msg)))
       sinks (world st)).2 ∧
  ((calls_in_order (λ s, sink_call s n m (record_value (payload msg)))
      sinks (world st)).1 = None →
   invocations (log (on_message self msg st).2) =
     invocations (log st) ++
     fan_out n m (record_value (payload msg)) sinks).
Proof.
  intros Hsrc Hparse Hn.
  rewrite (on_message_known st self names sinks msg n m) by done.
  set (st0 := State _ (world st) _).
  destruct (for_each_calls sinks n m (record_value (payload msg)) st0)
    as (Hr & Hw & Hinv).
  split; [done|]. split; [done|]. intros Hnone.
  rewrite (Hinv Hnone). cbn [st0 log]. rewrite invocations_app. cbn.
  by rewrite app_nil_r.
Qed.

(** The handler on any message, as the outside sees it. *)
Lemma on_message_handler_call (st : @state World) self names sinks msg :
  is_source st self names (Some sinks) →
  (on_message self msg st).1 =
    ended (handler_call names sinks msg (world st)).1 ∧
  world (on_message self msg st).2 =
    (handler_call names sinks msg (world st)).2 ∧
  ((handler_call names sinks msg (world st)).1 = None →
   invocations (log (on_message self msg st).2) =
     invocations (log st) ++ calls_of sinks msg).
Proof.
  intros Hsrc. unfold handler_call, calls_of.
  destruct (parse_topic (topic msg)) as [[n m]|] eqn:Hparse.
  - case_bool_decide as Hn.
    + by apply (on_message_calls st self names sinks msg n m).
    + by rewrite (on_message_unknown st self names (Some sinks) msg n m).
  - rewrite on_message_unparsed by done. cbn [fst snd world log ended].
    split; [done|]. split; [done|]. intros _.
    rewrite invocations_app. cbn. by rewrite app_nil_r.
Qed.

End Calls.

(** ** The properties of the pipeline *)

(** A configured source, shown by looking the objects up. *)
Ltac source_by_lookup :=
  eexists _, _; split; [reflexivity|]; split; [reflexivity|];
  split; [reflexivity|]; try reflexivity;
  eexists; split; reflexivity.

Section Parsing.

Context `{Environment World}.


End Parsing.



(** C2 (the code against the claim).  Configured for [living-room] with
    one sink, the handler is given topic [/kitchen/temperature] and
    payload [19.0].  The topic parses, the node is not configured, and
    building the warning reads [self.node_name], an attribute [__init__]
    never sets ([self.node_names] is the one it sets): the handler raises
    [AttributeError] before it logs the warning and before the loop, so
    the sink is not invoked. *)
Lemma unknown_node_raises :
  let st := Lab.started ["living-room"] [InfluxStore 2] in
  let run := on_message (H := Lab.env) Lab.source
               (Message "/kitchen/temperature" "19.0") st in
  parse_topic "/kitchen/temperature" = Some ("kitchen", "temperature") ∧
  run.1 = Raise (AttributeError "node_name") ∧
  invocations (log run.2) = [] ∧
  log run.2 =
    [Log MQTTSource_logger DEBUG
       (Fmt "Received MQTT message for topic %s with payload %s")].
Proof. by vm_compute. Qed.

Section EndToEnd.

Context `{Environment World}.

(** C3 (as the code has it).  With [living-room] configured and one
    sink registered, the topic [/living-room/temperature] is dropped with
    a warning: a hyphen is not a word character.  With the node named
    [living_room] and one sink registered, topic
    [/living_room/temperature] and payload [21.5], where [float] gives
    21.5, make exactly one invocation, with
    [("living_room", "temperature", 21.5)]: the handler ends as the call
    of the sink's [store_msg] with that record ends and leaves the world
    that call leaves. *)
Theorem living_room_temperature (st st' : @state World) self self' sink :
  (is_source st self ["living-room"] (Some [sink]) →
   on_message self (Message "/living-room/temperature" "21.5") st =
     (Return tt,
      State (heap st) (world st)
        (log st ++
         [Log MQTTSource_logger DEBUG
            (Fmt "Received MQTT message for topic %s with payload %s");
          Log MQTTSource_logger WARNING
            (Fmt "Could not extract node name or measurement name from topic %s")]))) ∧
  (is_source st' self' ["living_room"] (Some [sink]) →
   float_ "21.5" = Some 21.5%float →
   invocations
     (log (on_message self' (Message "/living_room/temperature" "21.5") st').2)
   = invocations (log st') ++
     [(sink, "living_room", "temperature", VFloat 21.5)] ∧
   (on_message self' (Message "/living_room/temperature" "21.5") st').1
   = ended (sink_call sink "living_room" "temperature" (VFloat 21.5)
              (world st')).1 ∧
   world (on_message self' (Message "/living_room/temperature" "21.5") st').2
   = (sink_call sink "living_room" "temperature" (VFloat 21.5)
        (world st')).2).
Proof.
  split.
  - intros _. by apply on_message_unparsed.
  - intros Hsrc Hfloat.
    assert (record_value "21.5" = VFloat 21.5) as Hv
      by (unfold record_value; by rewrite Hfloat).
    assert ("living_room" ∈ ["living_room"]) as Hin
      by (by apply list_elem_of_In; left).
    split.
    + rewrite (on_message_known st' self' ["living_room"] [sink] _
                 "living_room" "temperature") by done.
      destruct (for_each_invocations [sink] "living_room" "temperature"
        (record_value "21.5")
        (State (<[fresh (dom (heap st')) := ListObj [sink]]> (heap st'))
           (world st')
           (log st' ++ [Log MQTTSource_logger DEBUG
              (Fmt "Received MQTT message for topic %s with payload %s")])))
        as (k & Hk & Hpos & Hinv).
      cbn [payload]. rewrite Hinv. cbn [log]. rewrite invocations_app.
      destruct k as [|[|k]];
        [by specialize (Hpos ltac:(done)); lia| |cbn in Hk; lia].
      rewrite Hv. cbn. by rewrite app_nil_r.
    + destruct (on_message_calls st' self' ["living_room"] [sink]
        (Message "/living_room/temperature" "21.5") "living_room"
        "temperature" Hsrc eq_refl Hin) as (Hr & Hw & _).
      cbn [payload calls_in_order] in Hr, Hw. rewrite Hv in Hr, Hw.
      rewrite Hr, Hw.
      by destruct (sink_call sink "living_room" "temperature" (VFloat 21.5)
                     (world st')) as [[e|] w'].
Qed.

End EndToEnd.

Lemma living_room_temperature_witness :
  (on_message (H := Lab.env) Lab.source
     (Message "/living-room/temperature" "21.5")
     (Lab.started ["living-room"] [InfluxStore 2])).1 = Return tt ∧
  invocations
    (log (on_message (H := Lab.env) Lab.source
            (Message "/living_room/temperature" "21.5")
            (Lab.started ["living_room"] [InfluxStore 2])).2)
  = [(InfluxStore 2, "living_room", "temperature", VFloat 21.5)].
Proof.
  pose proof (living_room_temperature (H := Lab.env)
    (Lab.started ["living-room"] [InfluxStore 2])
    (Lab.started ["living_room"] [InfluxStore 2])
    Lab.source Lab.source (InfluxStore 2)) as [Hdrop Hstore].
  split.
  - exact (f_equal fst (Hdrop ltac:(source_by_lookup))).
  - exact (proj1 (Hstore ltac:(source_by_lookup) eq_refl)).
Defined.

(** C3, as the specification words it, fails: with [living-room]
    configured and one sink registered, topic [/living-room/temperature]
    with payload [21.5] makes no invocation at all. *)
Lemma hyphenated_node_dropped :
  let run := on_message (H := Lab.env) Lab.source
               (Message "/living-room/temperature" "21.5")
               (Lab.started ["living-room"] [InfluxStore 2]) in
  run.1 = Return tt ∧
  invocations (log run.2) = [] ∧
  invocations (log run.2)
    ≠ [(InfluxStore 2, "living-room", "temperature", VFloat 21.5)].
Proof. by vm_compute. Qed.

Section FanOut.

Context `{Environment World}.

(** An [InfluxStore] whose backend cannot be reached still returns. *)
Lemma unreachable_returns c n m v :
  unreachable c → returns_normally (InfluxStore c) n m v.
Proof.
  intros Hc [h w l]. cbn. unfold InfluxStore_store_msg. run_M.
  destruct (Hc [influx_point n m v] w) as (e & He & Hconn).
  destruct (write_points c _ w) as [r w']; cbn in He; subst r.
  by rewrite Hconn.
Qed.

(** C4 (as the code has it).  On a source, register the sinks [extra]
    one after the other, so that [sinks], at least one, are registered in
    all.  For a message whose topic parses to a configured node,
    [on_message] calls [store_msg] on the registered sinks in the order
    of registration, each with the same record and in the world the call
    before left, up to the first call that raises: it ends as these calls
    end and leaves the world they leave.  When every call returns, it has
    invoked each registered sink once per registration, in that order:
    there are as many invocations as registrations, and a sink registered
    twice is invoked twice. *)
Theorem fan_out_in_registration_order (st : @state World) self names regs
    extra msg n m :
  is_source st self names regs →
  default [] regs ++ extra ≠ [] →
  parse_topic (topic msg) = Some (n, m) →
  n ∈ names →
  let sinks := default [] regs ++ extra in
  let v := record_value (payload msg) in
  let st1 := (for_each extra (register_store self) st).2 in
  let out := calls_in_order (λ s, sink_call s n m v) sinks (world st) in
  is_source st1 self names (Some sinks) ∧
  (on_message self msg st1).1 = ended out.1 ∧
  world (on_message self msg st1).2 = out.2 ∧
  (out.1 = None →
   invocations (log (on_message self msg st1).2) =
     invocations (log st) ++ fan_out n m v sinks ∧
   length (fan_out n m v sinks) = length sinks).
Proof.
  intros Hsrc Hsome Hparse Hn sinks v st1 out.
  destruct (for_each_register st self names regs extra Hsrc)
    as (_ & Hworld & Hlog & Hsrc1). fold st1 in Hworld, Hlog, Hsrc1.
  assert (is_source st1 self names (Some sinks)) as Hreg.
  { unfold sinks in *. destruct extra as [|s extra]; [|done].
    rewrite app_nil_r in Hsome |- *. by destruct regs. }
  split; [done|].
  destruct (on_message_calls st1 self names sinks msg n m Hreg Hparse Hn)
    as (Hr & Hw & Hinv).
  fold v in Hr, Hw, Hinv. rewrite Hworld in Hr, Hw, Hinv. fold out in Hr, Hw, Hinv.
  split; [done|]. split; [done|]. intros Hnone.
  rewrite (Hinv Hnone), Hlog. split; [done|].
  unfold fan_out. by rewrite length_fmap.
Qed.

(** C5.  Whatever the state and the message, every invocation
    [on_message] makes carries the number [float] makes of the payload
    when it makes one, and the payload itself, unchanged, when [float]
    raises.  On a source with registered sinks, for a message whose topic
    parses to a configured node, that value is what the sinks are handed:
    the handler ends as the calls of [store_msg] on the registered sinks
    with the number (with the payload, when [float] raises) end, and
    leaves the world they leave; the first sink at least is invoked. *)
Theorem payload_coercion (st : @state World) self msg :
  ∃ calls,
    invocations (log (on_message self msg st).2) =
      invocations (log st) ++ calls ∧
    (∀ s n m v, (s, n, m, v) ∈ calls →
       (∀ x, float_ (payload msg) = Some x → v = VFloat x) ∧
       (float_ (payload msg) = None → v = VStr (payload msg))) ∧
    (∀ names sinks n m,
       is_source st self names (Some sinks) →
       parse_topic (topic msg) = Some (n, m) →
       n ∈ names →
       (∀ s rest, sinks = s :: rest → ∃ v, (s, n, m, v) ∈ calls) ∧
       (∀ x, float_ (payload msg) = Some x →
          (on_message self msg st).1 =
            ended (calls_in_order (λ s, sink_call s n m (VFloat x)) sinks
                     (world st)).1 ∧
          world (on_message self msg st).2 =
            (calls_in_order (λ s, sink_call s n m (VFloat x)) sinks
               (world st)).2) ∧
       (float_ (payload msg) = None →
          (on_message self msg st).1 =
            ended (calls_in_order (λ s, sink_call s n m (VStr (payload msg)))
                     sinks (world st)).1 ∧
          world (on_message self msg st).2 =
            (calls_in_order (λ s, sink_call s n m (VStr (payload msg)))
               sinks (world st)).2)).
Proof.
  assert (∀ v, v = record_value (payload msg) →
    (∀ x, float_ (payload msg) = Some x → v = VFloat x) ∧
    (float_ (payload msg) = None → v = VStr (payload msg))) as Hvalue.
  { intros v ->. unfold record_value.
    destruct (float_ (payload msg)); split; congruence. }
  assert (∀ names sinks n m,
    is_source st self names (Some sinks) →
    parse_topic (topic msg) = Some (n, m) →
    n ∈ names →
    (∀ x, float_ (payload msg) = Some x →
       (on_message self msg st).1 =
         ended (calls_in_order (λ s, sink_call s n m (VFloat x)) sinks
                  (world st)).1 ∧
       world (on_message self msg st).2 =
         (calls_in_order (λ s, sink_call s n m (VFloat x)) sinks
            (world st)).2) ∧
    (float_ (payload msg) = None →
       (on_message self msg st).1 =
         ended (calls_in_order (λ s, sink_call s n m (VStr (payload msg)))
                  sinks (world st)).1 ∧
       world (on_message self msg st).2 =
         (calls_in_order (λ s, sink_call s n m (VStr (payload msg)))
            sinks (world st)).2)) as Hhanded.
  { intros names sinks n m Hsrc Hparse Hn.
    destruct (on_message_calls st self names sinks msg n m Hsrc Hparse Hn)
      as (Hr & Hw & _).
    unfold record_value in Hr, Hw.
    split; [intros x Hx|intros Hx]; rewrite Hx in Hr, Hw; by split. }
  destruct (on_message_any st self msg)
    as [(r & lg & Hrun & Hlg)|(n & m & items & h' & lg & Hrun & Hlg)].
  - exists []. split; [|split].
    + rewrite Hrun. cbn [snd log]. by rewrite invocations_app, Hlg.
    + intros s n m v Hin. by apply elem_of_nil in Hin.
    + intros names sinks n m Hsrc Hparse Hn. split; [|by eapply Hhanded].
      intros s rest ->. exfalso.
      rewrite (on_message_known st self names _ msg n m) in Hrun by done.
      destruct (for_each_invocations (s :: rest) n m
        (record_value (payload msg))
        (State (<[fresh (dom (heap st)) := ListObj (s :: rest)]> (heap st))
           (world st)
           (log st ++ [Log MQTTSource_logger DEBUG
              (Fmt "Received MQTT message for topic %s with payload %s")])))
        as (k & _ & Hpos & Hinv).
      rewrite Hrun in Hinv. cbn [snd log] in Hinv.
      rewrite !invocations_app, Hlg in Hinv. cbn in Hinv.
      destruct k as [|k]; [specialize (Hpos ltac:(done)); lia|].
      cbn in Hinv. rewrite !app_nil_r in Hinv.
      apply (f_equal length) in Hinv. rewrite length_app in Hinv.
      cbn in Hinv. lia.
  - destruct (for_each_invocations items n m (record_value (payload msg))
      (State h' (world st) (log st ++ lg))) as (k & Hk & Hpos & Hinv).
    exists (fan_out n m (record_value (payload msg)) (take k items)).
    split; [|split].
    + rewrite Hrun, Hinv. cbn [log]. by rewrite invocations_app, Hlg, app_nil_r.
    + intros s n0 m0 v (s0 & [= -> -> -> ->] & _)%list_elem_of_fmap.
      by apply Hvalue.
    + intros names sinks n0 m0 Hsrc Hparse Hn. split; [|by eapply Hhanded].
      intros s rest ->. exists (record_value (payload msg)).
      rewrite (on_message_known st self names _ msg n0 m0) in Hrun by done.
      destruct (for_each_invocations (s :: rest) n0 m0
        (record_value (payload msg))
        (State (<[fresh (dom (heap st)) := ListObj (s :: rest)]> (heap st))
           (world st)
           (log st ++ [Log MQTTSource_logger DEBUG
              (Fmt "Received MQTT message for topic %s with payload %s")])))
        as (k' & _ & Hpos' & Hinv').
      rewrite Hrun, Hinv in Hinv'. cbn [log] in Hinv'.
      rewrite !invocations_app, Hlg in Hinv'. cbn in Hinv'.
      rewrite !app_nil_r in Hinv'. apply app_inv_head in Hinv'.
      rewrite Hinv'. destruct k' as [|k']; [specialize (Hpos' ltac:(done)); lia|].
      cbn. apply list_elem_of_here.
Qed.

End FanOut.

Lemma fan_out_in_registration_order_witness :
  let st0 := (MQTTSource_init (World := unit) "localhost" "1883" ["kitchen"]
                Lab.boot).2 in
  let st1 := (for_each [InfluxStore 2; InfluxStore 0; InfluxStore 2]
                (register_store Lab.source) st0).2 in
  (on_message (H := Lab.env) Lab.source
     (Message "/kitchen/temperature" "19.0") st1).1 = Return tt ∧
  invocations
    (log (on_message (H := Lab.env) Lab.source
            (Message "/kitchen/temperature" "19.0") st1).2)
  = [(InfluxStore 2, "kitchen", "temperature", VFloat 19);
     (InfluxStore 0, "kitchen", "temperature", VFloat 19);
     (InfluxStore 2, "kitchen", "temperature", VFloat 19)].
Proof.
  intros st0 st1.
  destruct (fan_out_in_registration_order (H := Lab.env)
    st0 Lab.source ["kitchen"] None
    [InfluxStore 2; InfluxStore 0; InfluxStore 2]
    (Message "/kitchen/temperature" "19.0") "kitchen" "temperature"
    ltac:(source_by_lookup) ltac:(discriminate) eq_refl
    ltac:(apply list_elem_of_In; simpl; tauto))
    as (_ & Hret & _ & Hall).
  split; [exact Hret|exact (proj1 (Hall eq_refl))].
Defined.

(** C4, as the specification words it, fails: of two registered sinks,
    the first is refused by its backend, [store_msg] lets the refusal out
    and the second sink is never invoked: one invocation for two sinks. *)
Lemma refused_write_stops_fan_out :
  let run := on_message (H := Lab.env) Lab.source
               (Message "/kitchen/temperature" "19.0")
               (Lab.started ["kitchen"] [InfluxStore 1; InfluxStore 2]) in
  run.1 = Raise (InfluxDBClientError 401) ∧
  invocations (log run.2)
    = [(InfluxStore 1, "kitchen", "temperature", VFloat 19)] ∧
  length (invocations (log run.2)) ≠ 2.
Proof. by vm_compute. Qed.

Lemma payload_coercion_witness :
  (∃ calls,
     invocations
       (log (on_message (H := Lab.env) Lab.source
               (Message "/kitchen/state" "ok")
               (Lab.started ["kitchen"] [InfluxStore 2])).2) = calls ∧
     (∀ s n m v, (s, n, m, v) ∈ calls → v = VStr "ok") ∧
     ∃ v, (InfluxStore 2, "kitchen", "state", v) ∈ calls) ∧
  (∃ calls,
     invocations
       (log (on_message (H := Lab.env) Lab.source
               (Message "/kitchen/temperature" "19.0")
               (Lab.started ["kitchen"] [InfluxStore 1])).2) = calls ∧
     (∀ s n m v, (s, n, m, v) ∈ calls → v = VFloat 19)) ∧
  (on_message (H := Lab.env) Lab.source
     (Message "/kitchen/temperature" "19.0")
     (Lab.started ["kitchen"] [InfluxStore 1])).1
  = Raise (InfluxDBClientError 401).
Proof.
  split; [|split].
  - destruct (payload_coercion (H := Lab.env)
      (Lab.started ["kitchen"] [InfluxStore 2]) Lab.source
      (Message "/kitchen/state" "ok")) as (calls & Hinv & Hvalue & Hhanded).
    exists calls. split; [exact Hinv|]. split.
    + intros s n m v Hin. apply (Hvalue s n m v Hin). reflexivity.
    + apply (proj1 (Hhanded ["kitchen"] [InfluxStore 2] "kitchen" "state"
        ltac:(source_by_lookup) eq_refl
        ltac:(apply list_elem_of_In; simpl; tauto)) (InfluxStore 2) []).
      reflexivity.
  - destruct (payload_coercion (H := Lab.env)
      (Lab.started ["kitchen"] [InfluxStore 1]) Lab.source
      (Message "/kitchen/temperature" "19.0"))
      as (calls & Hinv & Hvalue & _).
    exists calls. split; [exact Hinv|].
    intros s n m v Hin. apply (proj1 (Hvalue s n m v Hin)). reflexivity.
  - destruct (payload_coercion (H := Lab.env)
      (Lab.started ["kitchen"] [InfluxStore 1]) Lab.source
      (Message "/kitchen/temperature" "19.0"))
      as (calls & _ & _ & Hhanded).
    exact (proj1 (proj1 (proj2 (Hhanded ["kitchen"] [InfluxStore 1]
      "kitchen" "temperature" ltac:(source_by_lookup) eq_refl
      ltac:(apply list_elem_of_In; simpl; tauto))) 19%float eq_refl)).
Defined.

Section Failures.

Context `{Environment World}.

(** C6 (as the code has it).  The loop of [on_message] has no guard of its
    own.  A storage-backed sink whose backend cannot be reached does not
    stop it, because [InfluxStore.store_msg] returns: the sinks registered
    after it are invoked with the same record, the next one in any case,
    and all of them with [on_message] returning when their [store_msg]
    returns.  A sink whose [store_msg] raises ends the handler with that
    exception, and no sink registered after it is invoked. *)
Theorem connectivity_failure_isolation (st : @state World) self names
    before s after msg n m :
  is_source st self names (Some (before ++ s :: after)) →
  parse_topic (topic msg) = Some (n, m) →
  n ∈ names →
  Forall (λ s, returns_normally s n m (record_value (payload msg))) before →
  ((∃ c, s = InfluxStore c ∧ unreachable c) →
     ∃ k, (k ≤ length after)%nat ∧ (after ≠ [] → (0 < k)%nat) ∧
       invocations (log (on_message self msg st).2) =
         invocations (log st) ++
         fan_out n m (record_value (payload msg))
           (before ++ s :: take k after) ∧
       (Forall (λ s, returns_normally s n m (record_value (payload msg)))
          after →
        k = length after ∧ (on_message self msg st).1 = Return tt)) ∧
  (∀ e, always_raises s n m (record_value (payload msg)) e →
     (on_message self msg st).1 = Raise e ∧
     invocations (log (on_message self msg st).2) =
       invocations (log st) ++
       fan_out n m (record_value (payload msg)) (before ++ [s])).
Proof.
  intros Hsrc Hparse Hn Hbefore.
  rewrite (on_message_known st self names _ msg n m) by done.
  set (v := record_value (payload msg)) in *.
  set (st0 := State _ (world st) _).
  assert (invocations (log st0) = invocations (log st)) as Hlog0.
  { cbn. rewrite invocations_app. cbn. by rewrite app_nil_r. }
  split.
  - intros (c & -> & Hc).
    assert (Forall (λ s, returns_normally s n m v) (before ++ [InfluxStore c]))
      as Hprefix.
    { apply Forall_app. split; [done|].
      constructor; [by apply unreachable_returns|done]. }
    replace (before ++ InfluxStore c :: after)
      with ((before ++ [InfluxStore c]) ++ after) by by rewrite <- app_assoc.
    destruct (for_each_prefix _ after n m v st0 Hprefix)
      as (st1 & -> & _ & Hinv1).
    destruct (for_each_invocations after n m v st1) as (k & Hk & Hpos & Hinv).
    exists k. split; [done|]. split; [done|]. split.
    + rewrite Hinv, Hinv1, Hlog0, <- !app_assoc. f_equal.
      unfold fan_out. by rewrite <- !fmap_app, <- app_assoc.
    + intros Hafter.
      destruct (for_each_all_return after n m v st1 Hafter) as [Hret Hall].
      split; [|done]. rewrite Hall in Hinv. apply app_inv_head in Hinv.
      apply (f_equal length) in Hinv. unfold fan_out in Hinv.
      rewrite !length_fmap, length_take in Hinv. lia.
  - intros e He.
    destruct (for_each_raise before s after n m v e st0 Hbefore He)
      as [-> ->].
    by rewrite Hlog0.
Qed.

(** C7.  When the write raises [e]: if [e] is a connection error,
    [store_msg] logs it at error level and returns, the point having been
    handed to the client once; if [e] is of any other class, [store_msg]
    raises [e] and logs no error. *)
Theorem store_msg_failure_policy (st : @state World) c n m v e w' :
  write_points c [influx_point n m v] (world st) = (Some e, w') →
  InfluxStore_store_msg c n m v st =
    if is_ConnectionError e then
      (Return tt,
       State (heap st) w'
         (log st ++
          [Log InfluxStore_logger DEBUG (Fmt "Writing InfluxDB point: %s");
           WritePoints c [influx_point n m v];
           Log InfluxStore_logger ERROR (Exc e)]))
    else
      (Raise e,
       State (heap st) w'
         (log st ++
          [Log InfluxStore_logger DEBUG (Fmt "Writing InfluxDB point: %s");
           WritePoints c [influx_point n m v]])).
Proof.
  intros Hwrite. unfold InfluxStore_store_msg. run_M. rewrite Hwrite.
  destruct (is_ConnectionError e); next_M; by rewrite <- !app_assoc.
Qed.

(** C9.  Every call of [store_msg] on the storage-backed sink hands the
    client, in one call of [write_points], a list of one point: the call
    ends as that write ends (a connection error apart, which is
    swallowed) and leaves the world that write leaves.  The point has the
    keys [measurement], [tags] and [fields] and no other, so no [time];
    the measurement is the measurement name, the tags are [sensor_node],
    the node name, and nothing else, the fields are [value], the value,
    and nothing else. *)
Theorem written_point (st : @state World) c n m v :
  ∃ p,
    written (log (InfluxStore_store_msg c n m v st).2) =
      written (log st) ++ [(c, [p])] ∧
    (InfluxStore_store_msg c n m v st).1 =
      match (write_points c [p] (world st)).1 with
      | Some e => if is_ConnectionError e then Return tt else Raise e
      | None => Return tt
      end ∧
    world (InfluxStore_store_msg c n m v st).2 =
      (write_points c [p] (world st)).2 ∧
    p !! "measurement" = Some (PStr m) ∧
    p !! "tags" = Some (PTags {[ "sensor_node" := n ]}) ∧
    p !! "fields" = Some (PFields {[ "value" := v ]}) ∧
    dom p = {[ "measurement"; "tags"; "fields" ]} ∧
    p !! "time" = None.
Proof.
  exists (influx_point n m v).
  assert (written (log (InfluxStore_store_msg c n m v st).2) =
            written (log st) ++ [(c, [influx_point n m v])] ∧
          (InfluxStore_store_msg c n m v st).1 =
            match (write_points c [influx_point n m v] (world st)).1 with
            | Some e => if is_ConnectionError e then Return tt else Raise e
            | None => Return tt
            end ∧
          world (InfluxStore_store_msg c n m v st).2 =
            (write_points c [influx_point n m v] (world st)).2)
    as (Hwr & Hr & Hw).
  { unfold InfluxStore_store_msg. run_M. case_outside; next_M.
    - destruct (is_ConnectionError e); cbn [fst snd log world];
        rewrite !written_app; cbn; by rewrite !app_nil_r.
    - rewrite !written_app. cbn. by rewrite !app_nil_r. }
  do 3 (split; [done|]).
  unfold influx_point. split; [done|]. split; [done|]. split; [done|].
  split; [|done]. rewrite !dom_insert_L, dom_singleton_L. set_solver.
Qed.

End Failures.

Lemma connectivity_failure_isolation_witness :
  let run := on_message (H := Lab.env) Lab.source
               (Message "/kitchen/temperature" "19.0")
               (Lab.started ["kitchen"]
                  [InfluxStore 2; InfluxStore 0; InfluxStore 3]) in
  ∃ k,
    invocations (log run.2) =
      fan_out "kitchen" "temperature" (VFloat 19)
        ([InfluxStore 2] ++ InfluxStore 0 :: take k [InfluxStore 3]) ∧
    (k = 1 ∧ run.1 = Return tt).
Proof.
  intros run.
  destruct (proj1 (connectivity_failure_isolation (H := Lab.env)
    (Lab.started ["kitchen"] [InfluxStore 2; InfluxStore 0; InfluxStore 3])
    Lab.source ["kitchen"] [InfluxStore 2] (InfluxStore 0) [InfluxStore 3]
    (Message "/kitchen/temperature" "19.0") "kitchen" "temperature"
    ltac:(source_by_lookup) eq_refl
    ltac:(apply list_elem_of_In; simpl; tauto)
    ltac:(repeat constructor; intros []; reflexivity))
    ltac:(exists 0; split; [reflexivity|];
          intros pts w; exists ConnectionError; split; reflexivity))
    as (k & _ & _ & Hinv & Hall).
  exists k. split; [exact Hinv|]. apply Hall.
  repeat constructor; intros []; reflexivity.
Defined.

(** C6, as the specification words it, fails: a sink that lets a
    connection error out of [store_msg] ends the handler with that error,
    and the sink registered after it is not invoked. *)
Lemma raising_sink_stops_dispatch :
  let run := on_message (H := Lab.env) Lab.source
               (Message "/kitchen/temperature" "19.0")
               (Lab.started ["kitchen"] [Custom 0; InfluxStore 2]) in
  always_raises (H := Lab.env) (Custom 0) "kitchen" "temperature"
    (VFloat 19) ConnectionError ∧
  run.1 = Raise ConnectionError ∧
  invocations (log run.2) = [(Custom 0, "kitchen", "temperature", VFloat 19)] ∧
  (InfluxStore 2, "kitchen", "temperature", VFloat 19)
    ∉ invocations (log run.2).
Proof.
  split; [by intros []|]. split; [by vm_compute|].
  assert (invocations (log (on_message (H := Lab.env) Lab.source
            (Message "/kitchen/temperature" "19.0")
            (Lab.started ["kitchen"] [Custom 0; InfluxStore 2])).2)
          = [(Custom 0, "kitchen", "temperature", VFloat 19)]) as Hinv
    by by vm_compute.
  split; [done|]. cbv zeta. rewrite Hinv.
  intros Hin%list_elem_of_In. simpl in Hin. by destruct Hin.
Qed.

Lemma store_msg_failure_policy_witness :
  InfluxStore_store_msg (H := Lab.env) 0 "kitchen" "temperature" (VFloat 19)
    Lab.boot =
  (Return tt,
   State ∅ tt
     [Log InfluxStore_logger DEBUG (Fmt "Writing InfluxDB point: %s");
      WritePoints 0 [influx_point "kitchen" "temperature" (VFloat 19)];
      Log InfluxStore_logger ERROR (Exc ConnectionError)]).
Proof.
  exact (store_msg_failure_policy (H := Lab.env) Lab.boot 0 "kitchen"
           "temperature" (VFloat 19) ConnectionError tt eq_refl).
Defined.

Section Registration.

Context `{Environment World}.

(** Whenever [stores] returns, what it returns is a list object that was
    not there before. *)
Lemma stores_fresh (st : @state World) self l st1 :
  stores self st = (Return l, st1) →
  heap st !! l = None ∧ ∃ items, heap st1 !! l = Some (ListObj items).
Proof.
  unfold stores, getattr, list_items, alloc. run_M.
  destruct (heap st !! self) as [[cls d|items0]|]; next_M; try done.
  destruct (d !! "_stores") as [[s|sl|l0|]|]; next_M; try done.
  destruct (heap st !! l0) as [[cls0 d0|items]|]; next_M; try done.
  intros [= <- <-]. split; [apply fresh_unused|].
  exists items. cbn [heap]. apply lookup_insert_eq.
Qed.

(** C8.  Whenever [stores] returns, it returns a list object that was not
    there before: never the list the source keeps.  On a source with
    registered sinks it returns such a list holding the registered sinks;
    however the caller changes that list in place, the list the source
    keeps still holds the registered sinks, and what [on_message] does
    afterwards -- how it ends, what it writes, what it invokes and logs --
    is what it does without the change. *)
Theorem stores_returns_copy (st : @state World) self names sinks f msg :
  (∀ l st1, stores self st = (Return l, st1) → heap st !! l = None) ∧
  (is_source st self names (Some sinks) →
   ∃ l st1,
     stores self st = (Return l, st1) ∧
     heap st1 !! l = Some (ListObj sinks) ∧
     is_source st1 self names (Some sinks) ∧
     (list_update l f st1).1 = Return tt ∧
     heap (list_update l f st1).2 !! l = Some (ListObj (f sinks)) ∧
     is_source (list_update l f st1).2 self names (Some sinks) ∧
     observable (on_message self msg (list_update l f st1).2) =
       observable (on_message self msg st1)).
Proof.
  split; [intros l st1 Hret; by apply (stores_fresh st self l st1)|].
  intros Hsrc. eexists _, _. split; [by eapply stores_copy|].
  pose proof (fresh_unused (heap st)) as Hfresh.
  set (l := fresh (dom (heap st))) in *.
  assert (is_source (State (<[l := ListObj sinks]> (heap st)) (world st) (log st))
            self names (Some sinks)) as Hsrc1 by by apply is_source_alloc.
  unfold list_update. cbn [heap world log]. rewrite lookup_insert_eq.
  cbn [fst snd heap]. rewrite insert_insert_eq, !lookup_insert_eq.
  assert (is_source (State (<[l := ListObj (f sinks)]> (heap st)) (world st)
                       (log st)) self names (Some sinks)) as Hsrc2
    by by apply is_source_alloc.
  do 5 (split; [done|]).
  by apply (on_message_observable _ _ self names (Some sinks)).
Qed.

(** C10.  [__init__] leaves the source without a list of sinks.  As long
    as nothing was registered, reading [stores] raises [AttributeError]
    for [_stores] and changes nothing, and so does [on_message] when it
    comes to its loop, for a topic that parses to a configured node (for
    every topic that parses it raises an [AttributeError], and invokes no
    sink); the first [register_store] creates the list, after which
    [stores] returns a list of the one sink. *)
Theorem stores_created_on_first_registration (st : @state World) self names :
  is_source st self names None →
  (∀ (st' : @state World) host port,
     is_source (MQTTSource_init host port names st').2
       (fresh (dom (heap st'))) names None) ∧
  stores self st = (Raise (AttributeError "_stores"), st) ∧
  (∀ msg n m,
     parse_topic (topic msg) = Some (n, m) →
     (∃ a, (on_message self msg st).1 = Raise (AttributeError a) ∧
           (n ∈ names → a = "_stores")) ∧
     invocations (log (on_message self msg st).2) = invocations (log st)) ∧
  (∀ store,
     is_source (register_store self store st).2 self names (Some [store]) ∧
     ∃ l st1, stores self (register_store self store st).2 = (Return l, st1) ∧
              heap st1 !! l = Some (ListObj [store])).
Proof.
  intros Hsrc. split; [|split; [|split]].
  - intros st' host port. apply MQTTSource_init_source.
  - by eapply stores_unregistered.
  - intros msg n m Hparse.
    assert (invocations (log st ++ [Log MQTTSource_logger DEBUG
              (Fmt "Received MQTT message for topic %s with payload %s")])
            = invocations (log st)) as Hlog.
    { rewrite invocations_app. cbn. by rewrite app_nil_r. }
    destruct (decide (n ∈ names)) as [Hn|Hn].
    + rewrite (on_message_unregistered st self names msg n m) by done.
      split; [by exists "_stores"|done].
    + rewrite (on_message_unknown st self names None msg n m) by done.
      split; [by exists "node_name"|done].
  - intros store.
    destruct (register_store_source st self names None store Hsrc)
      as (_ & _ & _ & Hsrc1).
    split; [done|]. eexists _, _. split; [by eapply stores_copy|].
    cbn [heap]. by rewrite lookup_insert_eq.
Qed.

End Registration.

Lemma stores_returns_copy_witness :
  ∃ l st1,
    stores Lab.source (Lab.started ["kitchen"] [InfluxStore 2])
      = (Return l, st1) ∧
    heap (list_update l (λ _, []) st1).2 !! l = Some (ListObj []) ∧
    is_source (list_update l (λ _, []) st1).2 Lab.source ["kitchen"]
      (Some [InfluxStore 2]).
Proof.
  destruct (proj2 (stores_returns_copy (H := Lab.env)
    (Lab.started ["kitchen"] [InfluxStore 2]) Lab.source ["kitchen"]
    [InfluxStore 2] (λ _, []) (Message "/kitchen/temperature" "19.0"))
    ltac:(source_by_lookup))
    as (l & st1 & Hstores & _ & _ & _ & Hl & Hsrc & _).
  exists l, st1. split; [exact Hstores|]. split; [exact Hl|exact Hsrc].
Defined.

Lemma stores_created_on_first_registration_witness :
  stores Lab.source
    (MQTTSource_init (World := unit) "localhost" "1883" ["kitchen"] Lab.boot).2
  = (Raise (AttributeError "_stores"),
     (MQTTSource_init (World := unit) "localhost" "1883" ["kitchen"]
        Lab.boot).2).
Proof.
  refine (proj1 (proj2 (stores_created_on_first_registration (H := Lab.env)
    (MQTTSource_init "localhost" "1883" ["kitchen"] Lab.boot).2
    Lab.source ["kitchen"] _))).
  source_by_lookup.
Defined.

(** ** More of the program: subscriptions, the handler in sequence, the
    wiring of [main] *)

Section Subscriptions.

Context `{Environment World}.

Lemma subscriptions_app (a b : list event) :
  subscriptions (a ++ b) = subscriptions a ++ subscriptions b.
Proof. apply omap_app. Qed.

(** One turn of a loop. *)
Lemma for_each_step {A} (x : A) xs (body : A → M unit) (st : @state World) :
  for_each (x :: xs) body st =
  match body x st with
  | (Return _, st') => for_each xs body st'
  | (Raise e, st') => (Raise e, st')
  end.
Proof. reflexivity. Qed.

(** The body of the loop of [on_connect]. *)
Local Abbreviation subscribe_for :=
  (λ node_name : string,
     emit (Log MQTTSource_logger INFO
             (Fmt "Subscribing to topic %s for node_name %s"));;
     emit (Subscribe ("/" +:+ node_name +:+ "/#"));;
     external (subscribe ("/" +:+ node_name +:+ "/#"))).

Lemma subscribe_for_step name (st : @state World) :
  subscribe_for name st =
  (ended (subscribe ("/" +:+ name +:+ "/#") (world st)).1,
   State (heap st) (subscribe ("/" +:+ name +:+ "/#") (world st)).2
     (log st ++
      [Log MQTTSource_logger INFO
         (Fmt "Subscribing to topic %s for node_name %s");
       Subscribe ("/" +:+ name +:+ "/#")])).
Proof.
  run_M. rewrite <- app_assoc.
  by destruct (subscribe ("/" +:+ name +:+ "/#") (world st)) as [[e|] w'].
Qed.

(** The loop of [on_connect]: the names are subscribed for in order,
    each in the world the call before left, up to the first call that
    raises; when none raises, all were subscribed for. *)
Lemma subscribe_loop (names : list string) (st : @state World) :
  let loop := for_each names subscribe_for st in
  let out := calls_in_order subscribe
               ((λ name, "/" +:+ name +:+ "/#") <$> names) (world st) in
  loop.1 = ended out.1 ∧ world loop.2 = out.2 ∧ heap loop.2 = heap st ∧
  invocations (log loop.2) = invocations (log st) ∧
  written (log loop.2) = written (log st) ∧
  ∃ k, (k ≤ length names)%nat ∧
       subscriptions (log loop.2) =
         subscriptions (log st) ++
         ((λ name, "/" +:+ name +:+ "/#") <$> take k names) ∧
       (out.1 = None → k = length names).
Proof.
  revert st. induction names as [|name names IH]; intros st; cbv zeta.
  { cbn. do 5 (split; [done|]). exists 0. by rewrite app_nil_r. }
  rewrite for_each_step, subscribe_for_step.
  cbn [fmap list_fmap calls_in_order].
  destruct (subscribe ("/" +:+ name +:+ "/#") (world st)) as [[e|] w'];
    cbn [fst snd ended heap world log].
  - do 3 (split; [done|]).
    rewrite !invocations_app, !written_app, !subscriptions_app. cbn.
    rewrite !app_nil_r. do 2 (split; [done|]).
    exists 1. cbn. split; [lia|]. by split.
  - specialize (IH (State (heap st) w'
      (log st ++ [Log MQTTSource_logger INFO
                    (Fmt "Subscribing to topic %s for node_name %s");
                  Subscribe ("/" +:+ name +:+ "/#")]))).
    cbv zeta in IH. cbn [heap world log] in IH.
    destruct IH as (-> & -> & -> & -> & -> & k & Hk & -> & Hall).
    do 3 (split; [done|]).
    rewrite !invocations_app, !written_app, !subscriptions_app. cbn.
    rewrite !app_nil_r. do 2 (split; [done|]).
    exists (S k). cbn. split; [lia|]. split; [by rewrite <- app_assoc|].
    intros Hnone. by rewrite (Hall Hnone).
Qed.

(** [on_connect] on a source comes down to its loop. *)
Lemma on_connect_loop (st : @state World) self names regs :
  is_source st self names regs →
  on_connect self st =
  for_each names subscribe_for
    (State (heap st) (world st)
       (log st ++ [Log MQTTSource_logger INFO
                     (Fmt "Connected with result code  %s")])).
Proof.
  intros (cls & d & Hself & Hnames & _).
  unfold on_connect, getattr, string_items. run_M.
  by rewrite Hself, Hnames.
Qed.

(** X1.  On a source built by [__init__], [on_connect] calls
    [client.subscribe] for the configured node names in their order, each
    time with the slash, the name and [/#], each call in the world the
    call before left, and stops at the first call that raises: it ends as
    these calls end and leaves the world they leave.  The topics it went
    through are those of the first [k] names, all of them when no call
    raised; it changes no object of the store, invokes no sink and writes
    no point. *)
Theorem on_connect_subscribes (st : @state World) self names regs :
  is_source st self names regs →
  let topics := (λ name, "/" +:+ name +:+ "/#") <$> names in
  let out := calls_in_order subscribe topics (world st) in
  (on_connect self st).1 = ended out.1 ∧
  world (on_connect self st).2 = out.2 ∧
  heap (on_connect self st).2 = heap st ∧
  invocations (log (on_connect self st).2) = invocations (log st) ∧
  written (log (on_connect self st).2) = written (log st) ∧
  ∃ k, (k ≤ length names)%nat ∧
       subscriptions (log (on_connect self st).2) =
         subscriptions (log st) ++ take k topics ∧
       (out.1 = None → k = length names).
Proof.
  intros Hsrc topics out.
  rewrite (on_connect_loop st self names regs Hsrc).
  pose proof (subscribe_loop names
    (State (heap st) (world st)
       (log st ++ [Log MQTTSource_logger INFO
                     (Fmt "Connected with result code  %s")]))) as Hloop.
  cbv zeta in Hloop. cbn [heap world log] in Hloop.
  fold topics in Hloop. fold out in Hloop.
  destruct Hloop as (-> & -> & -> & -> & -> & k & Hk & -> & Hall).
  do 3 (split; [done|]).
  rewrite !invocations_app, !written_app, !subscriptions_app. cbn.
  rewrite !app_nil_r. do 2 (split; [done|]).
  exists k. split; [done|]. split; [|done].
  unfold topics. by rewrite fmap_take.
Qed.

End Subscriptions.

Lemma on_connect_subscribes_witness :
  (on_connect (H := Lab.env) Lab.source
     (Lab.started ["kitchen"; "living-room"] [InfluxStore 2])).1 = Return tt ∧
  ∃ k,
    subscriptions
      (log (on_connect (H := Lab.env) Lab.source
              (Lab.started ["kitchen"; "living-room"] [InfluxStore 2])).2)
    = take k ["/kitchen/#"; "/living-room/#"] ∧
    k = 2.
Proof.
  destruct (on_connect_subscribes (H := Lab.env)
    (Lab.started ["kitchen"; "living-room"] [InfluxStore 2]) Lab.source
    ["kitchen"; "living-room"] (Some [InfluxStore 2])
    ltac:(source_by_lookup)) as (Hret & _ & _ & _ & _ & k & _ & Hsub & Hall).
  split; [exact Hret|]. exists k. split; [exact Hsub|exact (Hall eq_refl)].
Defined.

Section SubscriptionAndPattern.

(** X2.  [on_connect] subscribes for a node name to the topics that start
    with a slash, the name and a slash.  When [on_message] parses such a
    topic, the node name it extracts is the subscribed name exactly when
    that name is a non-empty run of word characters: under the
    subscription of any other name (one with a hyphen, a dot, a space, a
    slash, or the empty name) no message is ever attributed to that
    name. *)
Theorem subscription_parses_to_its_node (name rest n m : string) :
  parse_topic ("/" +:+ name +:+ "/" +:+ rest) = Some (n, m) →
  (n = name ↔ wordb name = true).
Proof.
  intros (rest' & Ht & Hn & Hm & Hr)%parse_topic_accepted. split.
  - by intros <-.
  - intros Hname.
    apply (f_equal list_ascii_of_string) in Ht.
    rewrite !list_ascii_of_string_app in Ht. cbn in Ht.
    injection Ht as Ht.
    apply wordb_chars in Hname as [_ Hname]. apply wordb_chars in Hn as [_ Hn].
    pose proof (ReFacts.span_word_unique (list_ascii_of_string name)
      ("/"%char :: list_ascii_of_string rest) Hname eq_refl) as Hspan1.
    pose proof (ReFacts.span_word_unique (list_ascii_of_string n)
      ("/"%char :: list_ascii_of_string m ++ list_ascii_of_string rest')
      Hn eq_refl) as Hspan2.
    rewrite Ht, Hspan2 in Hspan1. injection Hspan1 as Heq _.
    rewrite <- (string_of_list_ascii_of_string n),
            <- (string_of_list_ascii_of_string name). by f_equal.
Qed.

End SubscriptionAndPattern.

Lemma subscription_parses_to_its_node_witness :
  "kitchen" = "kitchen" ↔ wordb "kitchen" = true.
Proof.
  exact (subscription_parses_to_its_node "kitchen" "temperature/raw"
           "kitchen" "temperature" eq_refl).
Defined.

Section Handler.

Context `{Environment World}.


(** X4.  On a source built by [__init__], a message whose topic parses
    to a node name that is not configured makes [on_message] raise
    [AttributeError] for [node_name], whatever is registered: only the
    debug line is logged, no warning, no sink is invoked, nothing is
    written, and the object store and the world are as before. *)
Theorem unconfigured_node_raises (st : @state World) self names regs msg n m :
  is_source st self names regs →
  parse_topic (topic msg) = Some (n, m) →
  n ∉ names →
  on_message self msg st =
    (Raise (AttributeError "node_name"),
     State (heap st) (world st)
       (log st ++
        [Log MQTTSource_logger DEBUG
           (Fmt "Received MQTT message for topic %s with payload %s")])) ∧
  invocations (log (on_message self msg st).2) = invocations (log st) ∧
  written (log (on_message self msg st).2) = written (log st).
Proof.
  intros Hsrc Hparse Hn.
  rewrite (on_message_unknown st self names regs msg n m) by done.
  split; [done|]. cbn [snd log]. rewrite invocations_app, written_app. cbn.
  by rewrite !app_nil_r.
Qed.

(** X5.  [on_message] changes no object that was in the store, however
    it ends: afterwards the source has the same node names and the same
    registered sinks, so that the next message meets the same source. *)
Theorem on_message_keeps_objects (st : @state World) self names regs msg :
  is_source st self names regs →
  (∀ l o, heap st !! l = Some o →
          heap (on_message self msg st).2 !! l = Some o) ∧
  is_source (on_message self msg st).2 self names regs.
Proof.
  intros Hsrc.
  assert (∀ l o, heap st !! l = Some o →
                 heap (on_message self msg st).2 !! l = Some o) as Hframe.
  { destruct (parse_topic (topic msg)) as [[n m]|] eqn:Hparse; cycle 1.
    { by rewrite on_message_unparsed. }
    destruct (decide (n ∈ names)) as [Hn|Hn]; cycle 1.
    { by rewrite (on_message_unknown st self names regs msg n m). }
    destruct regs as [sinks|]; cycle 1.
    { by rewrite (on_message_unregistered st self names msg n m). }
    rewrite (on_message_known st self names sinks msg n m) by done.
    set (h' := <[_ := _]> (heap st)).
    rewrite (for_each_heap sinks n m _ h' h'). cbn [snd heap].
    intros l o Hl. unfold h'. rewrite lookup_insert_ne; [done|].
    intros <-. by rewrite fresh_unused in Hl. }
  split; [done|]. by apply (is_source_frame st).
Qed.

(** X6.  A list obtained from [stores] is a snapshot: a sink registered
    afterwards is added to the list the source keeps and does not appear
    in the list obtained before. *)
Theorem earlier_snapshot_unchanged (st : @state World) self names sinks s :
  is_source st self names (Some sinks) →
  ∃ l st1,
    stores self st = (Return l, st1) ∧
    (register_store self s st1).1 = Return tt ∧
    heap (register_store self s st1).2 !! l = Some (ListObj sinks) ∧
    is_source (register_store self s st1).2 self names (Some (sinks ++ [s])).
Proof.
  intros Hsrc. eexists _, _. split; [by eapply stores_copy|].
  pose proof (fresh_unused (heap st)) as Hfresh.
  set (l := fresh (dom (heap st))) in *.
  set (st1 := State (<[l := ListObj sinks]> (heap st)) (world st) (log st)).
  assert (is_source st1 self names (Some sinks)) as Hsrc1
    by by apply is_source_alloc.
  destruct (register_store_source st1 self names (Some sinks) s Hsrc1)
    as (Hret & _ & _ & Hsrc2).
  split; [done|]. split; [|done].
  destruct Hsrc as (cls & d & Hself & Hnames & Hnone & l0 & Hl0 & Hitems).
  assert (l ≠ self) by congruence. assert (l ≠ l0) by congruence.
  unfold register_store, hasattr, alloc, setattr, getattr, list_append, st1.
  run_M. rewrite lookup_insert_ne, Hself by done.
  rewrite Hl0, bool_decide_eq_true_2 by done. next_M.
  rewrite lookup_insert_ne, Hself, Hl0 by done. next_M.
  rewrite lookup_insert_ne, Hitems by done. next_M.
  by rewrite lookup_insert_ne, lookup_insert_eq.
Qed.

End Handler.


Lemma unconfigured_node_raises_witness :
  (on_message (H := Lab.env) Lab.source (Message "/cellar/humidity" "61")
     (Lab.started ["kitchen"] [InfluxStore 2])).1
  = Raise (AttributeError "node_name").
Proof.
  refine (f_equal fst (proj1 (unconfigured_node_raises (H := Lab.env)
    (Lab.started ["kitchen"] [InfluxStore 2]) Lab.source ["kitchen"]
    (Some [InfluxStore 2]) (Message "/cellar/humidity" "61")
    "cellar" "humidity" _ _ _))).
  - source_by_lookup.
  - reflexivity.
  - intros Hin%list_elem_of_In. simpl in Hin. by destruct Hin.
Defined.

Lemma on_message_keeps_objects_witness :
  is_source
    (on_message (H := Lab.env) Lab.source (Message "/kitchen/temperature" "19.0")
       (Lab.started ["kitchen"] [InfluxStore 1])).2
    Lab.source ["kitchen"] (Some [InfluxStore 1]).
Proof.
  refine (proj2 (on_message_keeps_objects (H := Lab.env)
    (Lab.started ["kitchen"] [InfluxStore 1]) Lab.source ["kitchen"]
    (Some [InfluxStore 1]) (Message "/kitchen/temperature" "19.0") _)).
  source_by_lookup.
Defined.

Lemma earlier_snapshot_unchanged_witness :
  ∃ l st1,
    stores Lab.source (Lab.started ["kitchen"] [InfluxStore 2])
      = (Return l, st1) ∧
    heap (register_store Lab.source (InfluxStore 3) st1).2 !! l
      = Some (ListObj [InfluxStore 2]).
Proof.
  destruct (earlier_snapshot_unchanged (World := unit)
    (Lab.started ["kitchen"] [InfluxStore 2]) Lab.source ["kitchen"]
    [InfluxStore 2] (InfluxStore 3) ltac:(source_by_lookup))
    as (l & st1 & Hstores & _ & Hl & _).
  exists l, st1. split; [exact Hstores|exact Hl].
Defined.

Section Writes.

Context `{Environment World}.

(** X7.  On a source with registered sinks, for a message whose topic
    parses to a configured node, [on_message] calls [store_msg] on the
    registered sinks in the order of registration, each with the record
    made of the message and in the world the call before left, and stops
    at the first call that raises: it ends as these calls end -- raising
    what the first failing call raises -- and leaves the world they
    leave.  The sinks invoked are the first [k] registered ones, all of
    them when no call raised. *)
Theorem dispatch_calls_in_order (st : @state World) self names sinks
    msg n m :
  is_source st self names (Some sinks) →
  parse_topic (topic msg) = Some (n, m) →
  n ∈ names →
  let v := record_value (payload msg) in
  let out := calls_in_order (λ s, sink_call s n m v) sinks (world st) in
  (on_message self msg st).1 = ended out.1 ∧
  world (on_message self msg st).2 = out.2 ∧
  ∃ k, (k ≤ length sinks)%nat ∧ (sinks ≠ [] → (0 < k)%nat) ∧
    invocations (log (on_message self msg st).2) =
      invocations (log st) ++ fan_out n m v (take k sinks) ∧
    (out.1 = None → k = length sinks).
Proof.
  intros Hsrc Hparse Hn v out.
  destruct (on_message_calls st self names sinks msg n m Hsrc Hparse Hn)
    as (Hr & Hw & Hall).
  fold v in Hr, Hw, Hall. fold out in Hr, Hw, Hall.
  split; [done|]. split; [done|].
  rewrite (on_message_known st self names sinks msg n m) in Hall |- * by done.
  fold v in Hall |- *. set (st0 := State _ (world st) _) in *.
  destruct (for_each_invocations sinks n m v st0) as (k & Hk & Hpos & Hinv).
  assert (invocations (log st0) = invocations (log st)) as Hlog0.
  { cbn. rewrite invocations_app. cbn. by rewrite app_nil_r. }
  exists k. split; [done|]. split; [done|]. rewrite Hinv, Hlog0.
  split; [done|]. intros Hnone. specialize (Hall Hnone).
  rewrite Hinv, Hlog0 in Hall. apply app_inv_head in Hall.
  apply (f_equal length) in Hall. unfold fan_out in Hall.
  rewrite !length_fmap, length_take in Hall. lia.
Qed.

(** X8.  The wiring of [main]: a source for [node_names] with one
    [InfluxStore] registered.  Whatever the state it is built in, a
    message whose topic parses to a configured node makes one invocation
    of the sink and one [write_points] call with the one point of the
    record; the handler returns when the write returns or raises a
    connection error, and raises what the write raises otherwise. *)
Theorem main_pipeline (st : @state World) host port names c msg n m :
  parse_topic (topic msg) = Some (n, m) →
  n ∈ names →
  let v := record_value (payload msg) in
  let st1 := (configured host port names [InfluxStore c] st).2 in
  let run := on_message (fresh (dom (heap st))) msg st1 in
  (configured host port names [InfluxStore c] st).1
    = Return (fresh (dom (heap st))) ∧
  invocations (log run.2) = invocations (log st) ++ [(InfluxStore c, n, m, v)] ∧
  written (log run.2) = written (log st) ++ [(c, [influx_point n m v])] ∧
  run.1 = match (write_points c [influx_point n m v] (world st)).1 with
          | Some e => if is_ConnectionError e then Return tt else Raise e
          | None => Return tt
          end.
Proof.
  intros Hparse Hn v st1 run.
  destruct (configured_source st host port names [InfluxStore c])
    as (Hself & Hw & Hl & Hsrc).
  fold st1 in Hw, Hl, Hsrc. split; [done|].
  unfold run.
  rewrite (on_message_known st1 _ names [InfluxStore c] msg n m) by done.
  fold v. rewrite Hw, Hl. rewrite for_each_cons. cbn [heap world log for_each].
  unfold store_msg, InfluxStore_store_msg. run_M.
  case_outside; next_M.
  - destruct (is_ConnectionError e); cbn [fst snd log];
      rewrite !invocations_app, !written_app; cbn; by rewrite !app_nil_r.
  - rewrite !invocations_app, !written_app; cbn. by rewrite !app_nil_r.
Qed.

End Writes.

Section Sequence.

Context `{Environment World}.

(** X9.  The handler called for one message after the other, on a
    source with registered sinks.  If in this run no call raises -- each
    message either has a topic the pattern rejects, or parses to a
    configured node and every [store_msg] called for it returns -- then
    every call of the handler returns, the world left is the one left by
    the calls of [store_msg] for the messages in their order, on the
    registered sinks in registration order, and the invocations made are
    those of the messages in that order: for each parsed message every
    registered sink, for a rejected one none. *)
Theorem messages_in_sequence (st : @state World) self names sinks msgs :
  is_source st self names (Some sinks) →
  let out := calls_in_order (handler_call names sinks) msgs (world st) in
  out.1 = None →
  (for_each msgs (on_message self) st).1 = Return tt ∧
  world (for_each msgs (on_message self) st).2 = out.2 ∧
  invocations (log (for_each msgs (on_message self) st).2) =
    invocations (log st) ++ flat_map (calls_of sinks) msgs.
Proof.
  intros Hsrc. cbv zeta. revert st Hsrc.
  induction msgs as [|msg msgs IH]; intros st Hsrc Hnone.
  { cbn. by rewrite app_nil_r. }
  destruct (on_message_handler_call st self names sinks msg Hsrc)
    as (Hr & Hw & Hinv).
  pose proof (on_message_source st self names (Some sinks) msg Hsrc) as Hsrc1.
  cbn [calls_in_order] in Hnone |- *.
  cbn [for_each flat_map]. unfold mbind, M_bind, bind.
  destruct (handler_call names sinks msg (world st)) as [[e|] w'];
    [done|].
  destruct (on_message self msg st) as [r st1]; cbn [fst snd ended] in *.
  subst r w'. destruct (IH st1 Hsrc1 Hnone) as (-> & -> & ->).
  split; [done|]. split; [done|]. by rewrite (Hinv eq_refl), <- app_assoc.
Qed.

End Sequence.

Lemma dispatch_calls_in_order_witness :
  (on_message (H := Lab.env) Lab.source
     (Message "/kitchen/temperature" "19.0")
     (Lab.started ["kitchen"] [InfluxStore 0; InfluxStore 1; InfluxStore 2])).1
  = Raise (InfluxDBClientError 401).
Proof.
  exact (proj1 (dispatch_calls_in_order (H := Lab.env)
    (Lab.started ["kitchen"] [InfluxStore 0; InfluxStore 1; InfluxStore 2])
    Lab.source ["kitchen"] [InfluxStore 0; InfluxStore 1; InfluxStore 2]
    (Message "/kitchen/temperature" "19.0") "kitchen" "temperature"
    ltac:(source_by_lookup) eq_refl
    ltac:(apply list_elem_of_In; simpl; tauto))).
Defined.

Lemma main_pipeline_witness :
  written
    (log (on_message (H := Lab.env) Lab.source
            (Message "/kitchen/temperature" "19.0")
            (Lab.started ["kitchen"] [InfluxStore 1])).2)
  = [(1, [influx_point "kitchen" "temperature" (VFloat 19)])].
Proof.
  refine (proj1 (proj2 (proj2 (main_pipeline (H := Lab.env) Lab.boot
    "localhost" "1883" ["kitchen"] 1
    (Message "/kitchen/temperature" "19.0") "kitchen" "temperature" _ _)))).
  - reflexivity.
  - apply list_elem_of_In. simpl. tauto.
Defined.

Lemma messages_in_sequence_witness :
  invocations
    (log (for_each
            [Message "/kitchen/temperature" "19.0"; Message "bad-topic" "1";
             Message "/kitchen/state" "ok"]
            (on_message (H := Lab.env) Lab.source)
            (Lab.started ["kitchen"] [InfluxStore 2])).2)
  = [(InfluxStore 2, "kitchen", "temperature", VFloat 19);
     (InfluxStore 2, "kitchen", "state", VStr "ok")].
Proof.
  exact (proj2 (proj2 (messages_in_sequence (H := Lab.env)
    (Lab.started ["kitchen"] [InfluxStore 2]) Lab.source ["kitchen"]
    [InfluxStore 2]
    [Message "/kitchen/temperature" "19.0"; Message "bad-topic" "1";
     Message "/kitchen/state" "ok"] ltac:(source_by_lookup) eq_refl))).
Defined.
